(** * UpdateStrings: the parse-and-reconcile engine of
      [Localization/Code/UpdateStrings/script.py]

    A shallow embedding of [parse_strings_file_content] and
    [update_strings_file_content], with the Python primitives they rest on
    ([str.splitlines], [str.strip], slicing, the insertion-ordered [dict]),
    followed by the properties of the engine.

    Python strings are sequences of Unicode code points; they are modelled
    as lists of code points ([N]).  A failed [assert] is modelled as an
    error value. *)

From Stdlib Require Import Ascii String.
From Stdlib Require Import List NArith ZArith Bool Lia Permutation.
Import ListNotations.

(** ** Python strings *)

Definition pystr := list N.

Fixpoint pystr_eqb (a b : pystr) : bool :=
  match a, b with
  | [], [] => true
  | x :: a', y :: b' => (x =? y)%N && pystr_eqb a' b'
  | _, _ => false
  end.

Definition LF : N := 10%N.
Definition CR : N := 13%N.
Definition LINE_SEPARATOR : N := 8232%N.   (* U+2028 *)

(** The code points at which [str.splitlines] breaks a line:
    LF, VT, FF, CR, FS, GS, RS, NEL, U+2028, U+2029. *)
Definition is_linebreak (c : N) : bool :=
  existsb (N.eqb c) [10; 11; 12; 13; 28; 29; 30; 133; 8232; 8233]%N.

(** The code points [str.isspace] accepts, which [str.strip()] removes. *)
Definition isspace (c : N) : bool :=
  ((9 <=? c) && (c <=? 13) || (28 <=? c) && (c <=? 32)
   || (8192 <=? c) && (c <=? 8202)
   || existsb (N.eqb c) [133; 160; 5760; 8232; 8233; 8239; 8287; 12288])%N.

(** [s.splitlines(keepends)].  [cur] is the part of the current line that
    has been scanned; a CR immediately followed by LF is one line break; no
    empty line is produced after a final line break. *)
Fixpoint splitlines_from (keepends : bool) (cur s : pystr) : list pystr :=
  match s with
  | [] => match cur with [] => [] | _ => [cur] end
  | c :: rest =>
      if is_linebreak c then
        match rest with
        | c2 :: rest2 =>
            if (c =? CR)%N && (c2 =? LF)%N
            then (cur ++ if keepends then [c; c2] else [])
                   :: splitlines_from keepends [] rest2
            else (cur ++ if keepends then [c] else [])
                   :: splitlines_from keepends [] rest
        | [] => [cur ++ if keepends then [c] else []]
        end
      else splitlines_from keepends (cur ++ [c]) rest
  end.

Definition splitlines (keepends : bool) (s : pystr) : list pystr :=
  splitlines_from keepends [] s.

Fixpoint lstrip (s : pystr) : pystr :=
  match s with
  | c :: rest => if isspace c then lstrip rest else s
  | [] => []
  end.

Definition rstrip (s : pystr) : pystr := rev (lstrip (rev s)).

(** [s.strip()] *)
Definition strip (s : pystr) : pystr := rstrip (lstrip s).

(** A slice bound [i] of a string of length [len], as Python resolves it:
    a negative bound counts from the end, and the result is clipped to
    [0 .. len]. *)
Definition slice_bound (len : nat) (i : Z) : nat :=
  if (i <? 0)%Z then Z.to_nat (Z.max 0 (Z.of_nat len + i))
  else Nat.min (Z.to_nat i) len.

(** [s[:i]] and [s[i:]] *)
Definition slice_to (s : pystr) (i : Z) : pystr :=
  firstn (slice_bound (length s) i) s.
Definition slice_from (s : pystr) (i : Z) : pystr :=
  skipn (slice_bound (length s) i) s.

(** [k in s] for strings: [k] occurs in [s] as a contiguous run. *)
Fixpoint startswith (k s : pystr) : bool :=
  match k, s with
  | [], _ => true
  | a :: k', b :: s' => (a =? b)%N && startswith k' s'
  | _ :: _, [] => false
  end.

Fixpoint contains (k s : pystr) : bool :=
  startswith k s || match s with [] => false | _ :: s' => contains k s' end.

(** ** Errors *)

(** Both failures of the script are failed [assert]s; they are told apart
    by their message.  [KeyError] is what a failed [parse[k]] raises. *)
Inductive error : Type :=
| TrailingContentError (last_key : pystr)
    (* "There's content under the last key {last_key}. ..." *)
| CorruptionError (k l : pystr)
    (* "The key {k} appears in the comment for key {l}. ..." *)
| KeyError (k : pystr).

Inductive res (A : Type) : Type :=
| Ok (a : A)
| Err (e : error).
Arguments Ok {A} a.
Arguments Err {A} e.

Definition bind {A B} (r : res A) (f : A -> res B) : res B :=
  match r with Ok a => f a | Err e => Err e end.

Notation "x <- r ;; k" := (bind r (fun x => k))
  (at level 61, r at next level, right associativity).

(** ** The parse: an insertion-ordered dict of entries *)

Record entry : Type := { line : pystr; comment : pystr }.

(** A Python [dict] keeps its keys in insertion order, and assigning to a
    key that is present keeps the key's position: an association list whose
    keys are pairwise distinct. *)
Definition dict := list (pystr * entry).

Definition dict_keys (d : dict) : list pystr := map fst d.

Fixpoint dict_get (d : dict) (k : pystr) : option entry :=
  match d with
  | [] => None
  | (k', e) :: r => if pystr_eqb k' k then Some e else dict_get r k
  end.

Definition dict_mem (d : dict) (k : pystr) : bool :=
  match dict_get d k with Some _ => true | None => false end.

(** [d[k] = e] *)
Fixpoint dict_set (d : dict) (k : pystr) (e : entry) : dict :=
  match d with
  | [] => [(k, e)]
  | (k', e') :: r =>
      if pystr_eqb k' k then (k', e) :: r else (k', e') :: dict_set r k e
  end.

(** [d[k]], raising [KeyError] *)
Definition dict_item (d : dict) (k : pystr) : res entry :=
  match dict_get d k with Some e => Ok e | None => Err (KeyError k) end.

(** [k in ks] for a list (or a key view) of strings *)
Definition key_in (k : pystr) (ks : list pystr) : bool :=
  existsb (pystr_eqb k) ks.

(** [set(ks)]: the distinct elements of [ks].  Python fixes no iteration
    order for a set; the properties below do not depend on the order
    chosen here. *)
Fixpoint set_of (ks : list pystr) : list pystr :=
  match ks with
  | [] => []
  | k :: r => if key_in k r then set_of r else k :: set_of r
  end.

(** ** The statement pattern *)

(** What the script reads off a match object of
    [shared.strings_file_regex()]: [group(2)], [start(3)] and [end(3)]. *)
Record Match : Type := { group2 : pystr; start3 : Z; end3 : Z }.

Definition DQUOTE : N := 34%N.
Definition SEMICOLON : N := 59%N.
Definition EQUALS : N := 61%N.

(** The longest prefix of [s] whose code points satisfy [p], and the rest. *)
Fixpoint span (p : N -> bool) (s : pystr) : pystr * pystr :=
  match s with
  | c :: r => if p c then let (a, b) := span p r in (c :: a, b) else ([], s)
  | [] => ([], [])
  end.

(** The text up to the first closing quote that a semicolon follows. *)
Fixpoint value_span (s : pystr) : option pystr :=
  match s with
  | [] => None
  | c :: r =>
      if startswith [DQUOTE; SEMICOLON] s then Some []
      else match value_span r with Some v => Some (c :: v) | None => None end
  end.

(** Modelled from the spec: the statement pattern, which the script obtains
    from [shared.strings_file_regex()] of [Localization/Code/Shared], a module
    that is not among the sources.  The spec, section 4.1: a line matches if it has
    the shape ["<key>" = "<value>";], optionally preceded by whitespace; the
    pattern is anchored at the start of the line.  Group 2 is the key and
    group 3 the value.  The engine below is parameterised by the pattern;
    this one serves for the concrete documents. *)
Definition strings_file_regex (ln : pystr) : option Match :=
  let (ws, s1) := span isspace ln in
  match s1 with
  | q1 :: s2 =>
      let (key, s3) := span (fun c => negb (c =? DQUOTE)%N) s2 in
      match s3 with
      | _ :: s4 =>
          let (ws2, s5) := span isspace s4 in
          match s5 with
          | e :: s6 =>
              let (ws3, s7) := span isspace s6 in
              match s7 with
              | q2 :: s8 =>
                  match value_span s8 with
                  | Some v =>
                      if (q1 =? DQUOTE)%N && (e =? EQUALS)%N && (q2 =? DQUOTE)%N
                      then
                        let st := Z.of_nat (length ws + 1 + length key + 1
                                            + length ws2 + 1 + length ws3 + 1) in
                        Some {| group2 := key; start3 := st;
                                end3 := st + Z.of_nat (length v) |}
                      else None
                  | None => None
                  end
              | [] => None
              end
          | [] => None
          end
      | [] => None
      end
  | [] => None
  end.

(** ** The engine *)

Section Engine.

(** [regex.match], for [regex = shared.strings_file_regex()] *)
Variable regex : pystr -> option Match.

(** The variables of the loop of [parse_strings_file_content]. *)
Record parse_state : Type :=
  { result : dict; last_key : pystr; acc_comment : pystr }.

Definition parse_init : parse_state :=
  {| result := []; last_key := []; acc_comment := [] |}.

(** One iteration of [for line in content.splitlines(True)]. *)
Definition parse_line (remove_value : bool) (st : parse_state) (ln : pystr)
  : parse_state :=
  match regex ln with
  | Some m =>
      let key := group2 m in
      let result_line :=
        if remove_value
        then slice_to ln (start3 m) ++ slice_from ln (end3 m)
        else ln in
      {| result := dict_set (result st) key
                     {| line := result_line; comment := acc_comment st |};
         last_key := key;
         acc_comment := [] |}
  | None =>
      {| result := result st;
         last_key := last_key st;
         acc_comment := acc_comment st ++ ln |}
  end.

Definition parse_lines (remove_value : bool) (st : parse_state)
    (lines : list pystr) : parse_state :=
  fold_left (parse_line remove_value) lines st.

(** [parse_strings_file_content(content, remove_value)], the line-based
    approach (the code after its [return] is never run). *)
Definition parse_strings_file_content (content : pystr) (remove_value : bool)
  : res dict :=
  let st := parse_lines remove_value parse_init (splitlines true content) in
  let post_comment := acc_comment st in
  if (length (strip post_comment) =? 0)%nat then Ok (result st)
  else Err (TrailingContentError (last_key st)).

(** The entries of [mods]. *)
Inductive modification : Type :=
| ModInsert (key value : pystr)
| ModComment (key before after : pystr).

(** One iteration of [for key in generated_parse.keys()].  The inserted
    entry [g] is shared with [generated_parse]; it is written to only
    through [p], and [p] is an entry that was in [parse] before the key was
    visited, so with the distinct keys of a dict the sharing is never
    observed. *)
Definition reconcile_key (st : dict * list modification)
    (kg : pystr * entry) : dict * list modification :=
  let (parse, mods) := st in
  let (key, g) := kg in
  match dict_get parse key with
  | None =>
      (dict_set parse key g,
       mods ++ [ModInsert key (comment g ++ line g)])
  | Some p =>
      if negb (pystr_eqb (comment p) (comment g))
      then (dict_set parse key {| line := line p; comment := comment g |},
            mods ++ [ModComment key (comment p) (comment g)])
      else (parse, mods)
  end.

Definition reconcile (parse generated_parse : dict)
  : dict * list modification :=
  fold_left reconcile_key generated_parse (parse, []).

(** [for k in all_keys: assert k not in l_comment] *)
Fixpoint check_comment (l l_comment : pystr) (ks : list pystr) : res unit :=
  match ks with
  | [] => Ok tt
  | k :: r =>
      if contains k l_comment then Err (CorruptionError k l)
      else check_comment l l_comment r
  end.

(** [for l in all_keys: ...] *)
Fixpoint validate (parse : dict) (all_keys ls : list pystr) : res unit :=
  match ls with
  | [] => Ok tt
  | l :: r =>
      e <- dict_item parse l ;;
      _ <- check_comment l (comment e) all_keys ;;
      validate parse all_keys r
  end.

(** [for k in new_keys: new_content += parse[k]['comment'] + parse[k]['line']] *)
Fixpoint attach (parse : dict) (new_content : pystr) (ks : list pystr)
  : res pystr :=
  match ks with
  | [] => Ok new_content
  | k :: r =>
      e <- dict_item parse k ;;
      attach parse (new_content ++ comment e ++ line e) r
  end.

Record ordered_keys : Type :=
  { before : list pystr; after : list pystr }.

(** [update_strings_file_content] from its two parses on.  ['before'] is
    [parse.keys()], a view of the dict as it is after the insertions. *)
Definition update_parses (parse0 generated_parse : dict)
  : res (pystr * list modification * ordered_keys) :=
  let (parse, mods) := reconcile parse0 generated_parse in
  let all_keys :=
    set_of (dict_keys parse ++ dict_keys generated_parse) in
  _ <- validate parse all_keys all_keys ;;
  let new_keys := dict_keys generated_parse in
  let superfluous_keys :=
    filter (fun k => negb (key_in k (dict_keys generated_parse)))
           (dict_keys parse) in
  let new_keys := new_keys ++ superfluous_keys in
  new_content <- attach parse [] new_keys ;;
  Ok (new_content, mods,
      {| before := dict_keys parse;
         after := dict_keys generated_parse ++ superfluous_keys |}).

Definition update_strings_file_content (content generated_content : pystr)
  : res (pystr * list modification * ordered_keys) :=
  parse <- parse_strings_file_content content false ;;
  generated_parse <- parse_strings_file_content generated_content true ;;
  update_parses parse generated_parse.

End Engine.

(** ** Concrete documents *)

(** The code points of an ASCII text. *)
Definition txt (s : string) : pystr :=
  map N_of_ascii (list_ascii_of_string s).

(** The statement ["k" = "v";], without a line break. *)
Definition stmt (k v : string) : pystr :=
  [DQUOTE] ++ txt k ++ [DQUOTE] ++ txt " = " ++ [DQUOTE] ++ txt v
    ++ [DQUOTE; SEMICOLON].

(** The statement followed by a line feed. *)
Definition stmt_nl (k v : string) : pystr := stmt k v ++ [LF].

Definition parse_doc := parse_strings_file_content strings_file_regex.
Definition update_doc := update_strings_file_content strings_file_regex.

(** The scenario of the spec, section 8: the target text, and the reference text as
    the extractor writes it, each value being its key. *)
Definition scenario_target : pystr :=
  txt "/* old note */" ++ [LF] ++ stmt_nl "A" "Hello" ++ stmt_nl "B" "World".

Definition scenario_reference : pystr :=
  txt "/* new note */" ++ [LF] ++ stmt_nl "A" "A"
    ++ txt "/* new note */" ++ [LF] ++ stmt_nl "C" "C".

Definition parsed (r : res dict) : dict :=
  match r with Ok d => d | Err _ => [] end.

Definition scenario_T : dict :=
  Eval vm_compute in parsed (parse_doc scenario_target false).

Definition scenario_R : dict :=
  Eval vm_compute in parsed (parse_doc scenario_reference true).

Definition scenario_output : pystr :=
  txt "/* new note */" ++ [LF] ++ stmt_nl "A" "Hello"
    ++ txt "/* new note */" ++ [LF] ++ stmt_nl "C" EmptyString
    ++ stmt_nl "B" "World".

Definition scenario_mods : list modification :=
  [ModComment (txt "A") (txt "/* old note */" ++ [LF])
              (txt "/* new note */" ++ [LF]);
   ModInsert (txt "C") (txt "/* new note */" ++ [LF] ++ stmt_nl "C" EmptyString)].

Definition scenario_order : ordered_keys :=
  {| before := [txt "A"; txt "B"; txt "C"];
     after := [txt "A"; txt "C"; txt "B"] |}.

(** A statement line, a blank line after it. *)
Definition doc_blank_tail : pystr := stmt_nl "A" "x" ++ [LF].

(** A comment, two statements, a blank line. *)
Definition doc_two : pystr :=
  txt "/* c */" ++ [LF] ++ stmt_nl "A" "x" ++ stmt_nl "B" "y" ++ [LF].

Definition doc_two_parse : dict :=
  Eval vm_compute in parsed (parse_doc doc_two false).

(** The lines of [doc_two] up to its last statement line, and after it. *)
Definition doc_two_pre : list pystr :=
  [txt "/* c */" ++ [LF]; stmt_nl "A" "x"; stmt_nl "B" "y"].
Definition doc_two_post : list pystr := [[LF]].

(** Text that is not a statement after the last statement line. *)
Definition doc_junk_tail : pystr := stmt_nl "A" "x" ++ txt "junk".

(** The same key on two statement lines. *)
Definition doc_duplicate : pystr := stmt_nl "A" "x" ++ stmt_nl "A" "y".

(** A value holding U+2028, as Interface Builder writes a line break. *)
Definition doc_line_separator : pystr :=
  [DQUOTE] ++ txt "K" ++ [DQUOTE] ++ txt " = " ++ [DQUOTE]
    ++ txt "a" ++ [LINE_SEPARATOR] ++ txt "b" ++ [DQUOTE; SEMICOLON; LF].

(** The comment of [B] mentions the key [A]. *)
Definition doc_foreign_key : pystr :=
  stmt_nl "A" "x" ++ txt "/* see A */" ++ [LF] ++ stmt_nl "B" "y".

(** The comment of [K] mentions [K], the only key. *)
Definition doc_own_key : pystr :=
  txt "/* about K */" ++ [LF] ++ stmt_nl "K" "v".

Definition doc_foreign_key_parse : dict :=
  Eval vm_compute in parsed (parse_doc doc_foreign_key false).

Definition doc_foreign_key_stripped : dict :=
  Eval vm_compute in parsed (parse_doc doc_foreign_key true).

Definition doc_own_key_parse : dict :=
  Eval vm_compute in parsed (parse_doc doc_own_key false).

Definition doc_own_key_stripped : dict :=
  Eval vm_compute in parsed (parse_doc doc_own_key true).

(** A target whose last line has no line break, and a reference that
    orders the keys the other way round. *)
Definition doc_open_end : pystr := stmt_nl "A" "x" ++ stmt "B" "y".
Definition doc_swapped : pystr := stmt_nl "B" "B" ++ stmt_nl "A" "A".

(** What the first run on them returns: the two statements on one line. *)
Definition doc_open_end_output : pystr := stmt "B" "y" ++ stmt_nl "A" "x".

(** A target line ending in a bare CR, and a reference whose next comment
    is a blank line. *)
Definition doc_bare_cr : pystr := stmt "A" "x" ++ [CR] ++ stmt_nl "B" "y".
Definition doc_blank_comment : pystr :=
  stmt_nl "A" "A" ++ [LF] ++ stmt_nl "B" "B".

(** ** Vocabulary of the properties *)

(** A line that ends in a line break which cannot fuse with what follows
    it: a body without line breaks, then one line break other than a bare
    CR, or CR LF. *)
Fixpoint closed_line (l : pystr) : bool :=
  match l with
  | [] => false
  | c :: r =>
      match r with
      | [] => is_linebreak c && negb (c =? CR)%N
      | _ :: _ =>
          if is_linebreak c then (c =? CR)%N && pystr_eqb r [LF]
          else closed_line r
      end
  end.

(** Every line of the text is closed: the last one is terminated, and no
    line ends in a bare CR. *)
Definition well_terminated (s : pystr) : bool :=
  forallb closed_line (splitlines true s).

Section Vocabulary.

Variable regex : pystr -> option Match.

Definition is_statement (ln : pystr) : bool :=
  match regex ln with Some _ => true | None => false end.

(** The keys recognised on the statement lines, in the order of the
    lines, with repetitions. *)
Fixpoint matched_keys (lines : list pystr) : list pystr :=
  match lines with
  | [] => []
  | ln :: r =>
      match regex ln with
      | Some m => group2 m :: matched_keys r
      | None => matched_keys r
      end
  end.

(** What the parse stores for a statement line. *)
Definition stored_line (remove_value : bool) (ln : pystr) (m : Match)
  : pystr :=
  if remove_value then slice_to ln (start3 m) ++ slice_from ln (end3 m)
  else ln.

(** The entries of the statement lines, one per statement line, each with
    the text accumulated since the previous statement line. *)
Fixpoint entries (remove_value : bool) (acc : pystr) (lines : list pystr)
  : list (pystr * entry) :=
  match lines with
  | [] => []
  | ln :: r =>
      match regex ln with
      | Some m =>
          (group2 m,
           {| line := stored_line remove_value ln m; comment := acc |})
            :: entries remove_value [] r
      | None => entries remove_value (acc ++ ln) r
      end
  end.

(** The text accumulated since the last statement line. *)
Fixpoint pending (acc : pystr) (lines : list pystr) : pystr :=
  match lines with
  | [] => acc
  | ln :: r =>
      match regex ln with
      | Some _ => pending [] r
      | None => pending (acc ++ ln) r
      end
  end.

(** A value-stripped statement line of the text is still a closed
    statement line of the same key. *)
Definition strip_stable_line (ln : pystr) : bool :=
  match regex ln with
  | Some m =>
      let s := stored_line true ln m in
      closed_line s
      && match regex s with
         | Some m' => pystr_eqb (group2 m') (group2 m)
         | None => false
         end
  | None => true
  end.

Definition strip_stable (s : pystr) : bool :=
  forallb strip_stable_line (splitlines true s).

(** A comment made of closed lines none of which is a statement. *)
Definition comment_lines_ok (c : pystr) : Prop :=
  exists cl, c = concat cl
             /\ forall l, In l cl -> closed_line l = true /\ regex l = None.

(** An entry that reads back as itself: its comment is made of closed
    lines that are not statements, and its line is a closed statement
    line of its key. *)
Definition entry_lines_ok (k : pystr) (e : entry) : Prop :=
  comment_lines_ok (comment e)
  /\ closed_line (line e) = true
  /\ exists m, regex (line e) = Some m /\ group2 m = k.

End Vocabulary.

(** [d[k] = e] for each [(k, e)] of [es] in turn. *)
Definition dict_set_all (d : dict) (es : list (pystr * entry)) : dict :=
  fold_left (fun d ke => dict_set d (fst ke) (snd ke)) es d.

(** The entry the reconciliation leaves under a reference key [k] whose
    reference entry is [g]: the target's line under the reference comment,
    or [g] itself where the target has no such key. *)
Definition merged_entry (d : dict) (k : pystr) (g : entry) : entry :=
  match dict_get d k with
  | Some p => {| line := line p; comment := comment g |}
  | None => g
  end.

(** The keys of the target that the reference does not have. *)
Definition superfluous (target reference : dict) : list pystr :=
  filter (fun k => negb (key_in k (dict_keys reference))) (dict_keys target).

(** The text an entry contributes to a document. *)
Definition piece (ke : pystr * entry) : pystr :=
  comment (snd ke) ++ line (snd ke).

(** ** Further vocabulary *)

(** The distinct elements of [ks], each at the place of its first
    occurrence. *)
Fixpoint keep_first (ks : list pystr) : list pystr :=
  match ks with
  | [] => []
  | k :: r => k :: filter (fun x => negb (pystr_eqb x k)) (keep_first r)
  end.

(** An entry without its line. *)
Definition key_comment (ke : pystr * entry) : pystr * pystr :=
  (fst ke, comment (snd ke)).

(** The modification the reconciliation records for a reference entry,
    read off the target as it is before the reconciliation. *)
Definition mod_of (target : dict) (kg : pystr * entry) : list modification :=
  match dict_get target (fst kg) with
  | None => [ModInsert (fst kg) (comment (snd kg) ++ line (snd kg))]
  | Some p =>
      if negb (pystr_eqb (comment p) (comment (snd kg)))
      then [ModComment (fst kg) (comment p) (comment (snd kg))]
      else []
  end.

(** The key a modification is about. *)
Definition mod_key (x : modification) : pystr :=
  match x with
  | ModInsert k _ => k
  | ModComment k _ _ => k
  end.

(** The entries of the target whose keys the reference does not have. *)
Definition superfluous_entries (target reference : dict) : dict :=
  filter (fun ke => negb (key_in (fst ke) (dict_keys reference))) target.

(** ** The callers *)

(** An element of [modss]: [{'path': ..., 'mods': ..., 'ordered_keys': ...}]. *)
Record modss_item : Type :=
  { item_path : pystr;
    item_mods : list modification;
    item_ordered_keys : ordered_keys }.

Section Files.

(** The files, as [shared.read_file(path, 'utf-8')] and
    [shared.write_file(path, text)] see them.  [Localization/Code/Shared] is
    not among the sources: the two are parameters, and the files read are
    taken to exist and to decode. *)
Variable FS : Type.
Variable read_file : FS -> pystr -> pystr.
Variable write_file : FS -> pystr -> pystr -> FS.

Variable regex : pystr -> option Match.

(** The loop [for path in strings_file_paths] of [update_strings_files],
    from the files [fs] and the records [modss] gathered so far.  A failed
    assert of [update_strings_file_content] ends the loop; the files stay
    as they are at that point. *)
Fixpoint update_paths (wet_run : bool) (generated_content : pystr)
    (fs : FS) (modss : list modss_item) (paths : list pystr)
  : FS * res (list modss_item) :=
  match paths with
  | [] => (fs, Ok modss)
  | path :: rest =>
      let content := read_file fs path in
      match update_strings_file_content regex content generated_content with
      | Err e => (fs, Err e)
      | Ok (new_content, mods, ordered_keys) =>
          let fs' :=
            if wet_run && negb (pystr_eqb new_content content)
            then write_file fs path new_content
            else fs in
          update_paths wet_run generated_content fs'
            (modss ++ [{| item_path := path; item_mods := mods;
                          item_ordered_keys := ordered_keys |}])
            rest
      end
  end.

End Files.

Arguments update_paths {FS} read_file write_file regex wet_run
  generated_content fs modss paths.

(** [x['modtype']] *)
Definition modtype (x : modification) : pystr :=
  match x with
  | ModInsert _ _ => txt "insert"
  | ModComment _ _ _ => txt "comment"
  end.

(** [a < b] for strings: code point by code point. *)
Fixpoint pystr_ltb (a b : pystr) : bool :=
  match a, b with
  | _, [] => false
  | [], _ :: _ => true
  | x :: a', y :: b' => (x <? y)%N || ((x =? y)%N && pystr_ltb a' b')
  end.

(** [sorted(l, key=key, reverse=True)]: descending by key, and stable, so
    that elements of equal keys keep the order they have in [l]. *)
Fixpoint insert_reverse {A} (key : A -> pystr) (x : A) (l : list A) : list A :=
  match l with
  | [] => [x]
  | y :: r =>
      if pystr_ltb (key x) (key y) then y :: insert_reverse key x r
      else x :: y :: r
  end.

Definition sorted_reverse {A} (key : A -> pystr) (l : list A) : list A :=
  fold_right (insert_reverse key) [] l.

Definition is_insert (x : modification) : bool :=
  match x with ModInsert _ _ => true | ModComment _ _ _ => false end.

(** Files as a list of paths with their texts, for the concrete runs: a
    file that is not listed reads as the empty text. *)
Definition files := list (pystr * pystr).

Fixpoint files_read (fs : files) (path : pystr) : pystr :=
  match fs with
  | [] => []
  | (p, c) :: r => if pystr_eqb p path then c else files_read r path
  end.

Definition files_write (fs : files) (path text : pystr) : files :=
  (path, text) :: fs.

(** Further concrete documents. *)

(** The key [A] on the first and on the last of three statement lines. *)
Definition doc_aba : pystr :=
  stmt_nl "A" "x" ++ stmt_nl "B" "y" ++ stmt_nl "A" "z".

Definition doc_aba_parse : dict :=
  Eval vm_compute in parsed (parse_doc doc_aba false).

(** A statement with an empty value. *)
Definition doc_empty_value : pystr := stmt_nl "A" EmptyString.

(** A statement with the empty key. *)
Definition doc_empty_key : pystr := stmt_nl EmptyString "x".

Definition doc_empty_key_parse : dict :=
  Eval vm_compute in parsed (parse_doc doc_empty_key false).

Definition doc_empty_key_stripped : dict :=
  Eval vm_compute in parsed (parse_doc doc_empty_key true).

Definition scenario_output_parse : dict :=
  Eval vm_compute in parsed (parse_doc scenario_output false).

(** The reference of the scenario as it is stored: without its values. *)
Definition scenario_reference_stripped : pystr :=
  txt "/* new note */" ++ [LF] ++ stmt_nl "A" EmptyString
    ++ txt "/* new note */" ++ [LF] ++ stmt_nl "C" EmptyString.

(** Three files: one to be updated, one in sync, one with text after its
    last statement line. *)
Definition files0 : files :=
  [(txt "de", scenario_target); (txt "fr", scenario_output);
   (txt "it", doc_junk_tail)].

Definition run_files (wet_run : bool) (fs : files) (paths : list pystr)
  : files * res (list modss_item) :=
  update_paths files_read files_write strings_file_regex wet_run
    scenario_reference fs [] paths.

Definition modss_of (r : files * res (list modss_item)) : list modss_item :=
  match snd r with Ok m => m | Err _ => [] end.

Definition files_after_de_fr : files :=
  Eval vm_compute in fst (run_files true files0 [txt "de"; txt "fr"]).

Definition modss_after_de_fr : list modss_item :=
  Eval vm_compute in modss_of (run_files true files0 [txt "de"; txt "fr"]).

Definition files_after_de : files :=
  Eval vm_compute in fst (run_files true files0 [txt "de"]).

Definition modss_after_de : list modss_item :=
  Eval vm_compute in modss_of (run_files true files0 [txt "de"]).

(** ** Python primitives *)

Lemma pystr_eqb_eq (a b : pystr) : pystr_eqb a b = true <-> a = b.
Proof.
  revert b; induction a as [|x a IH]; intros [|y b]; simpl;
    try (split; [discriminate | discriminate]); try tauto.
  rewrite andb_true_iff, N.eqb_eq, IH.
  split; [intros [-> ->]; reflexivity | intros E; inversion E; auto].
Qed.

Lemma pystr_eqb_refl (a : pystr) : pystr_eqb a a = true.
Proof. apply pystr_eqb_eq; reflexivity. Qed.

Lemma pystr_eqb_neq (a b : pystr) : pystr_eqb a b = false <-> a <> b.
Proof.
  rewrite <- pystr_eqb_eq. destruct (pystr_eqb a b); split; congruence.
Qed.

Lemma key_in_In (k : pystr) (ks : list pystr) : key_in k ks = true <-> In k ks.
Proof.
  unfold key_in. rewrite existsb_exists. split.
  - intros (x & Hx & E). apply pystr_eqb_eq in E. subst. exact Hx.
  - intros H. exists k. split; [exact H | apply pystr_eqb_refl].
Qed.

Lemma key_in_not_In (k : pystr) (ks : list pystr) :
  key_in k ks = false <-> ~ In k ks.
Proof.
  rewrite <- key_in_In. destruct (key_in k ks); split; congruence.
Qed.

Lemma set_of_In (k : pystr) (ks : list pystr) : In k (set_of ks) <-> In k ks.
Proof.
  induction ks as [|a ks IH]; simpl; [tauto|].
  destruct (key_in a ks) eqn:E.
  - rewrite IH. apply key_in_In in E. split; [auto | intros [<-|]; auto].
  - simpl. rewrite IH. tauto.
Qed.

Lemma splitlines_from_cons (keepends : bool) (cur : pystr) (c : N) (rest : pystr) :
  splitlines_from keepends cur (c :: rest) =
  if is_linebreak c then
    match rest with
    | c2 :: rest2 =>
        if (c =? CR)%N && (c2 =? LF)%N
        then (cur ++ if keepends then [c; c2] else [])
               :: splitlines_from keepends [] rest2
        else (cur ++ if keepends then [c] else [])
               :: splitlines_from keepends [] rest
    | [] => [cur ++ if keepends then [c] else []]
    end
  else splitlines_from keepends (cur ++ [c]) rest.
Proof. reflexivity. Qed.

(** [splitlines(True)] cuts the text without losing or adding anything. *)
Lemma splitlines_from_concat_len (n : nat) :
  forall s cur, length s <= n -> concat (splitlines_from true cur s) = cur ++ s.
Proof.
  induction n as [|n IH]; intros s cur Hn.
  - destruct s; [|simpl in Hn; lia]. simpl.
    destruct cur; simpl; rewrite ?app_nil_r; reflexivity.
  - destruct s as [|c rest].
    + simpl. destruct cur; simpl; rewrite ?app_nil_r; reflexivity.
    + simpl in Hn. rewrite splitlines_from_cons. destruct (is_linebreak c).
      * destruct rest as [|c2 rest2].
        { simpl. rewrite app_nil_r. reflexivity. }
        simpl in Hn.
        destruct ((c =? CR)%N && (c2 =? LF)%N); cbn [concat].
        -- rewrite (IH rest2 []) by lia. rewrite <- app_assoc. reflexivity.
        -- rewrite (IH (c2 :: rest2) []) by (simpl; lia).
           rewrite <- app_assoc. reflexivity.
      * rewrite (IH rest (cur ++ [c])) by lia.
        rewrite <- app_assoc. reflexivity.
Qed.

Lemma splitlines_concat (s : pystr) : concat (splitlines true s) = s.
Proof. apply (splitlines_from_concat_len (length s)). lia. Qed.

Lemma closed_line_cons2 (c c2 : N) (r2 : pystr) :
  closed_line (c :: c2 :: r2) =
  if is_linebreak c then (c =? CR)%N && pystr_eqb (c2 :: r2) [LF]
  else closed_line (c2 :: r2).
Proof. reflexivity. Qed.

(** A closed line at the head of a text is the first line of the text. *)
Lemma splitlines_from_closed (l : pystr) :
  forall cur s, closed_line l = true ->
    splitlines_from true cur (l ++ s) = (cur ++ l) :: splitlines_from true [] s.
Proof.
  induction l as [|c r IH]; intros cur s H; [discriminate|].
  destruct r as [|c2 r2].
  - simpl in H. apply andb_true_iff in H. destruct H as [Hb Hc].
    apply negb_true_iff in Hc.
    change ([c] ++ s) with (c :: s). rewrite splitlines_from_cons, Hb.
    destruct s as [|c2 s2]; [reflexivity|].
    rewrite Hc. reflexivity.
  - rewrite closed_line_cons2 in H.
    change ((c :: c2 :: r2) ++ s) with (c :: c2 :: (r2 ++ s)).
    rewrite splitlines_from_cons. destruct (is_linebreak c).
    + apply andb_true_iff in H. destruct H as [Hc Hr].
      apply pystr_eqb_eq in Hr. inversion Hr; subst.
      rewrite Hc. reflexivity.
    + change (c2 :: r2 ++ s) with ((c2 :: r2) ++ s).
      rewrite (IH (cur ++ [c]) s H). rewrite <- app_assoc. reflexivity.
Qed.

Lemma splitlines_concat_closed (ls : list pystr) :
  forallb closed_line ls = true -> splitlines true (concat ls) = ls.
Proof.
  unfold splitlines. induction ls as [|l ls IH]; simpl; intros H.
  - reflexivity.
  - apply andb_true_iff in H. destruct H as [Hl Hls].
    rewrite splitlines_from_closed by exact Hl. simpl. rewrite IH by exact Hls.
    reflexivity.
Qed.

(** [len(s.strip()) == 0] says that [s] is whitespace throughout. *)
Lemma lstrip_nil (s : pystr) : lstrip s = [] <-> forallb isspace s = true.
Proof.
  induction s as [|c s IH]; simpl; [tauto|].
  destruct (isspace c); simpl; [exact IH | split; discriminate].
Qed.

Lemma lstrip_head (s : pystr) :
  lstrip s = [] \/ exists c r, lstrip s = c :: r /\ isspace c = false.
Proof.
  induction s as [|c s IH]; simpl; [left; reflexivity|].
  destruct (isspace c) eqn:E; [exact IH|]. right. exists c, s. auto.
Qed.

Lemma strip_empty (s : pystr) :
  (length (strip s) =? 0)%nat = true <-> forallb isspace s = true.
Proof.
  rewrite Nat.eqb_eq, length_zero_iff_nil. unfold strip, rstrip. split.
  - intros H. apply (f_equal (@rev N)) in H. rewrite rev_involutive in H.
    simpl in H. apply lstrip_nil in H. rewrite forallb_forall in H.
    destruct (lstrip_head s) as [E | (c & r & E & Hc)].
    + apply lstrip_nil; exact E.
    + rewrite E in H. rewrite (H c) in Hc; [discriminate|].
      apply in_rev. rewrite rev_involutive. left; reflexivity.
  - intros H. apply lstrip_nil in H. rewrite H. reflexivity.
Qed.

Lemma forallb_isspace_In (s : pystr) :
  forallb isspace s = true <-> (forall c, In c s -> isspace c = true).
Proof. apply forallb_forall. Qed.

Lemma startswith_iff (k s : pystr) :
  startswith k s = true <-> exists b, s = k ++ b.
Proof.
  revert s; induction k as [|a k IH]; intros s; simpl.
  - split; [intros _; exists s; reflexivity | reflexivity].
  - destruct s as [|c s].
    + split; [discriminate | intros (b & E); discriminate].
    + rewrite andb_true_iff, N.eqb_eq, IH. split.
      * intros (-> & b & ->). exists b. reflexivity.
      * intros (b & E). inversion E. split; [reflexivity | exists b; reflexivity].
Qed.

(** [k in s] holds exactly when [k] occurs verbatim inside [s]. *)
Lemma contains_iff (k s : pystr) :
  contains k s = true <-> exists a b, s = a ++ k ++ b.
Proof.
  induction s as [|c s IH].
  - simpl. rewrite orb_false_r, startswith_iff. split.
    + intros (b & E). exists [], b. exact E.
    + intros (a & b & E). symmetry in E. apply app_eq_nil in E.
      destruct E as [-> E]. exists b. symmetry. exact E.
  - cbn [contains]. rewrite orb_true_iff, startswith_iff, IH. split.
    + intros [(b & E) | (a & b & E)].
      * exists [], b. exact E.
      * exists (c :: a), b. rewrite E. reflexivity.
    + intros (a & b & E). destruct a as [|x a].
      * left. exists b. exact E.
      * right. inversion E. exists a, b. reflexivity.
Qed.

(** ** The dict *)

Lemma dict_get_set_same (d : dict) (k : pystr) (e : entry) :
  dict_get (dict_set d k e) k = Some e.
Proof.
  induction d as [|[k' e'] d IH]; simpl.
  - rewrite pystr_eqb_refl. reflexivity.
  - destruct (pystr_eqb k' k) eqn:E; simpl; rewrite E; auto.
Qed.

Lemma dict_get_set_other (d : dict) (k k' : pystr) (e : entry) :
  k <> k' -> dict_get (dict_set d k e) k' = dict_get d k'.
Proof.
  intros Hne. induction d as [|[k0 e0] d IH]; simpl.
  - apply pystr_eqb_neq in Hne. rewrite Hne. reflexivity.
  - destruct (pystr_eqb k0 k) eqn:E; simpl.
    + apply pystr_eqb_eq in E. subst k0.
      apply pystr_eqb_neq in Hne. rewrite Hne. reflexivity.
    + rewrite IH. reflexivity.
Qed.

Lemma dict_get_None (d : dict) (k : pystr) :
  dict_get d k = None <-> ~ In k (dict_keys d).
Proof.
  induction d as [|[k' e'] d IH]; simpl; [tauto|].
  destruct (pystr_eqb k' k) eqn:E.
  - apply pystr_eqb_eq in E. split; [discriminate | intros H; exfalso; auto].
  - apply pystr_eqb_neq in E. rewrite IH. tauto.
Qed.

Lemma dict_get_Some_In (d : dict) (k : pystr) (e : entry) :
  dict_get d k = Some e -> In k (dict_keys d).
Proof.
  intros H. destruct (in_dec (list_eq_dec N.eq_dec) k (dict_keys d)) as [i|n];
    [exact i|]. apply dict_get_None in n. congruence.
Qed.

Lemma dict_get_In (d : dict) (k : pystr) :
  In k (dict_keys d) -> exists e, dict_get d k = Some e.
Proof.
  intros H. destruct (dict_get d k) as [e|] eqn:E; [exists e; reflexivity|].
  apply dict_get_None in E. contradiction.
Qed.

Lemma dict_set_absent (d : dict) (k : pystr) (e : entry) :
  dict_get d k = None -> dict_set d k e = d ++ [(k, e)].
Proof.
  induction d as [|[k' e'] d IH]; simpl; [reflexivity|].
  destruct (pystr_eqb k' k); [discriminate|].
  intros H. rewrite IH by exact H. reflexivity.
Qed.

Lemma dict_set_present (d : dict) (k : pystr) (e : entry) :
  dict_get d k = Some e -> dict_set d k e = d.
Proof.
  induction d as [|[k' e'] d IH]; simpl; [discriminate|].
  destruct (pystr_eqb k' k); intros H.
  - inversion H. reflexivity.
  - rewrite IH by exact H. reflexivity.
Qed.

Lemma dict_keys_set_present (d : dict) (k : pystr) (e e' : entry) :
  dict_get d k = Some e' -> dict_keys (dict_set d k e) = dict_keys d.
Proof.
  unfold dict_keys.
  induction d as [|[k0 e0] d IH]; simpl; [discriminate|].
  destruct (pystr_eqb k0 k); intros H; simpl; [reflexivity|].
  rewrite IH by exact H. reflexivity.
Qed.

Lemma dict_keys_set_absent (d : dict) (k : pystr) (e : entry) :
  dict_get d k = None -> dict_keys (dict_set d k e) = dict_keys d ++ [k].
Proof.
  intros H. rewrite dict_set_absent by exact H.
  unfold dict_keys. rewrite map_app. reflexivity.
Qed.

Lemma dict_set_NoDup (d : dict) (k : pystr) (e : entry) :
  NoDup (dict_keys d) -> NoDup (dict_keys (dict_set d k e)).
Proof.
  intros H. destruct (dict_get d k) as [e'|] eqn:E.
  - rewrite (dict_keys_set_present d k e e' E). exact H.
  - rewrite dict_keys_set_absent by exact E.
    apply NoDup_app; [exact H | constructor; [intros []|constructor] |].
    intros x Hx [<-|[]]. apply dict_get_None in E. contradiction.
Qed.

Lemma dict_get_of_In (d : dict) (k : pystr) (e : entry) :
  NoDup (dict_keys d) -> In (k, e) d -> dict_get d k = Some e.
Proof.
  induction d as [|[k' e'] d IH]; simpl; intros Hnd Hin; [contradiction|].
  inversion Hnd as [|? ? Hk Hd]; subst.
  destruct Hin as [E | Hin].
  - inversion E; subst. rewrite pystr_eqb_refl. reflexivity.
  - destruct (pystr_eqb k' k) eqn:E.
    + apply pystr_eqb_eq in E. subst k'. exfalso. apply Hk.
      change k with (fst (k, e)). apply in_map. exact Hin.
    + apply IH; assumption.
Qed.

Lemma dict_get_in_dict (d : dict) (k : pystr) (e : entry) :
  dict_get d k = Some e -> In (k, e) d.
Proof.
  induction d as [|[k' e'] d IH]; simpl; [discriminate|].
  destruct (pystr_eqb k' k) eqn:E; intros H.
  - apply pystr_eqb_eq in E. inversion H; subst. left; reflexivity.
  - right. apply IH. exact H.
Qed.

Lemma dict_set_all_cons (d : dict) k e (es : list (pystr * entry)) :
  dict_set_all d ((k, e) :: es) = dict_set_all (dict_set d k e) es.
Proof. reflexivity. Qed.

Lemma dict_set_all_fresh (es : list (pystr * entry)) :
  forall d, NoDup (map fst es) ->
    (forall k, In k (map fst es) -> ~ In k (dict_keys d)) ->
    dict_set_all d es = d ++ es.
Proof.
  induction es as [|[k e] es IH]; intros d Hnd Hfresh.
  - simpl. rewrite app_nil_r. reflexivity.
  - simpl in Hnd. inversion Hnd as [|? ? Hk Hes]; subst.
    rewrite dict_set_all_cons.
    rewrite dict_set_absent by (apply dict_get_None, Hfresh; left; reflexivity).
    rewrite IH.
    + rewrite <- app_assoc. reflexivity.
    + exact Hes.
    + intros k' Hk' Hin. unfold dict_keys in Hin. rewrite map_app in Hin.
      apply in_app_or in Hin. destruct Hin as [Hin | [<- | []]].
      * apply (Hfresh k'); [right; exact Hk' | exact Hin].
      * apply Hk. exact Hk'.
Qed.

Lemma dict_set_all_NoDup (es : list (pystr * entry)) :
  forall d, NoDup (dict_keys d) -> NoDup (dict_keys (dict_set_all d es)).
Proof.
  induction es as [|[k e] es IH]; intros d H; [exact H|].
  rewrite dict_set_all_cons. apply IH. apply dict_set_NoDup. exact H.
Qed.

(** Serialising along a list of entries that the dict holds. *)
Lemma attach_entries (d : dict) (es : list (pystr * entry)) :
  forall c, (forall ke, In ke es -> dict_get d (fst ke) = Some (snd ke)) ->
    attach d c (map fst es) = Ok (c ++ flat_map piece es).
Proof.
  induction es as [|[k e] es IH]; intros c H; simpl.
  - rewrite app_nil_r. reflexivity.
  - unfold dict_item. pose proof (H (k, e) (or_introl eq_refl)) as Hk.
    simpl in Hk. rewrite Hk. simpl.
    rewrite IH by (intros ke Hke; apply H; right; exact Hke).
    unfold piece at 2. simpl. rewrite <- !app_assoc. reflexivity.
Qed.

Lemma attach_own_keys (d : dict) :
  NoDup (dict_keys d) -> attach d [] (dict_keys d) = Ok (flat_map piece d).
Proof.
  intros H. apply (attach_entries d d []).
  intros [k e] Hin. apply dict_get_of_In; assumption.
Qed.

(** ** The parse *)

Section ParseFacts.

Variable regex : pystr -> option Match.

Lemma parse_lines_app rv st (a b : list pystr) :
  parse_lines regex rv st (a ++ b)
  = parse_lines regex rv (parse_lines regex rv st a) b.
Proof. apply fold_left_app. Qed.

Lemma parse_lines_result rv (lines : list pystr) :
  forall st,
    result (parse_lines regex rv st lines)
    = dict_set_all (result st) (entries regex rv (acc_comment st) lines).
Proof.
  induction lines as [|ln r IH]; intros st; simpl; [reflexivity|].
  rewrite IH. unfold parse_line. destruct (regex ln) as [m|]; reflexivity.
Qed.

Lemma parse_lines_acc_comment rv (lines : list pystr) :
  forall st,
    acc_comment (parse_lines regex rv st lines)
    = pending regex (acc_comment st) lines.
Proof.
  induction lines as [|ln r IH]; intros st; simpl; [reflexivity|].
  rewrite IH. unfold parse_line. destruct (regex ln) as [m|]; reflexivity.
Qed.

(** Lines that are not statements only add to the pending comment. *)
Lemma parse_lines_no_statement rv (post : list pystr) :
  forall st, (forall ln, In ln post -> regex ln = None) ->
    parse_lines regex rv st post
    = {| result := result st; last_key := last_key st;
         acc_comment := acc_comment st ++ concat post |}.
Proof.
  induction post as [|ln r IH]; intros st H; simpl.
  - rewrite app_nil_r. destruct st; reflexivity.
  - rewrite IH by (intros l Hl; apply H; right; exact Hl).
    unfold parse_line. rewrite (H ln) by (left; reflexivity). simpl.
    rewrite <- app_assoc. reflexivity.
Qed.

(** After a statement line nothing is pending and its key is the last. *)
Lemma parse_lines_statement_last rv st (pre : list pystr) ln m :
  regex ln = Some m ->
  acc_comment (parse_lines regex rv st (pre ++ [ln])) = []
  /\ last_key (parse_lines regex rv st (pre ++ [ln])) = group2 m.
Proof.
  intros Hm. rewrite parse_lines_app. simpl. unfold parse_line.
  rewrite Hm. simpl. auto.
Qed.

(** The state after the lines, split at the last statement line. *)
Lemma parse_lines_split rv (pre post : list pystr) (last : pystr) :
  (forall ln, In ln post -> regex ln = None) ->
  (pre = [] /\ last = []
   \/ exists pre' ln m,
       pre = pre' ++ [ln] /\ regex ln = Some m /\ last = group2 m) ->
  acc_comment (parse_lines regex rv parse_init (pre ++ post)) = concat post
  /\ last_key (parse_lines regex rv parse_init (pre ++ post)) = last.
Proof.
  intros Hpost Hpre. rewrite parse_lines_app.
  rewrite parse_lines_no_statement by exact Hpost. simpl.
  destruct Hpre as [[-> ->] | (pre' & ln & m & -> & Hm & ->)].
  - simpl. auto.
  - destruct (parse_lines_statement_last rv parse_init pre' ln m Hm) as [-> ->].
    auto.
Qed.

Lemma entries_keys rv (lines : list pystr) :
  forall acc, map fst (entries regex rv acc lines) = matched_keys regex lines.
Proof.
  induction lines as [|ln r IH]; intros acc; simpl; [reflexivity|].
  destruct (regex ln) as [m|]; simpl; rewrite IH; reflexivity.
Qed.

(** The entries and the pending text make up the lines. *)
Lemma entries_text (lines : list pystr) :
  forall acc,
    flat_map piece (entries regex false acc lines) ++ pending regex acc lines
    = acc ++ concat lines.
Proof.
  induction lines as [|ln r IH]; intros acc; simpl.
  - rewrite app_nil_r. reflexivity.
  - destruct (regex ln) as [m|]; simpl.
    + unfold piece at 1. simpl. rewrite <- !app_assoc. rewrite IH. reflexivity.
    + rewrite IH. rewrite <- app_assoc. reflexivity.
Qed.

Lemma parse_result_NoDup rv (lines : list pystr) :
  NoDup (dict_keys (result (parse_lines regex rv parse_init lines))).
Proof.
  rewrite parse_lines_result. apply dict_set_all_NoDup. constructor.
Qed.

Lemma parse_NoDup content rv d :
  parse_strings_file_content regex content rv = Ok d -> NoDup (dict_keys d).
Proof.
  unfold parse_strings_file_content.
  destruct (length (strip _) =? 0)%nat; [|discriminate].
  intros H. inversion H. apply parse_result_NoDup.
Qed.

(** With no key recognised twice, the parse is the list of the entries. *)
Lemma parse_result_entries rv (lines : list pystr) :
  NoDup (matched_keys regex lines) ->
  result (parse_lines regex rv parse_init lines) = entries regex rv [] lines.
Proof.
  intros H. rewrite parse_lines_result. simpl.
  rewrite dict_set_all_fresh; [reflexivity | | intros k _ []].
  rewrite entries_keys. exact H.
Qed.

(** Every list of lines splits at its last statement line. *)
Lemma last_statement_split (lines : list pystr) :
  exists pre post last,
    lines = pre ++ post
    /\ (forall ln, In ln post -> regex ln = None)
    /\ (pre = [] /\ last = []
        \/ exists pre' ln m,
            pre = pre' ++ [ln] /\ regex ln = Some m /\ last = group2 m).
Proof.
  induction lines as [|x lines' IH] using rev_ind.
  - exists [], [], []. repeat split; [intros ln []| left; auto].
  - destruct (regex x) as [m|] eqn:E.
    + exists (lines' ++ [x]), [], (group2 m). rewrite app_nil_r.
      repeat split; [intros ln [] | right; exists lines', x, m; auto].
    + destruct IH as (pre & post & last & -> & Hpost & Hpre).
      exists pre, (post ++ [x]), last. rewrite app_assoc.
      repeat split; [|exact Hpre].
      intros ln Hln. apply in_app_or in Hln.
      destruct Hln as [Hln | [<- | []]]; [apply Hpost; exact Hln | exact E].
Qed.

End ParseFacts.

(** ** The reconciliation loop *)

Lemma reconcile_key_fst (d : dict) ms k g :
  fst (reconcile_key (d, ms) (k, g)) = dict_set d k (merged_entry d k g).
Proof.
  unfold reconcile_key, merged_entry.
  destruct (dict_get d k) as [p|] eqn:E; [|reflexivity].
  destruct (pystr_eqb (comment p) (comment g)) eqn:Ec; simpl; [|reflexivity].
  apply pystr_eqb_eq in Ec. symmetry. apply dict_set_present.
  rewrite E, <- Ec. destruct p; reflexivity.
Qed.

Lemma reconcile_key_snd (d : dict) ms k g :
  exists added, snd (reconcile_key (d, ms) (k, g)) = ms ++ added
    /\ (dict_get d k = None -> added = [ModInsert k (comment g ++ line g)]).
Proof.
  unfold reconcile_key. destruct (dict_get d k) as [p|] eqn:E.
  - destruct (negb _); simpl.
    + eexists; split; [reflexivity | discriminate].
    + exists []; split; [rewrite app_nil_r; reflexivity | discriminate].
  - simpl. eexists; split; [reflexivity | reflexivity].
Qed.

Lemma reconcile_cons (d : dict) ms kg (R : dict) :
  fold_left reconcile_key (kg :: R) (d, ms)
  = fold_left reconcile_key R
      (fst (reconcile_key (d, ms) kg), snd (reconcile_key (d, ms) kg)).
Proof. simpl. rewrite <- surjective_pairing. reflexivity. Qed.

Lemma reconcile_get_other (R : dict) :
  forall d ms k, ~ In k (dict_keys R) ->
    dict_get (fst (fold_left reconcile_key R (d, ms))) k = dict_get d k.
Proof.
  induction R as [|[k0 g0] R IH]; intros d ms k Hk; [reflexivity|].
  rewrite reconcile_cons, IH by (intros H; apply Hk; right; exact H).
  rewrite reconcile_key_fst. apply dict_get_set_other.
  intros ->. apply Hk. left; reflexivity.
Qed.

Lemma reconcile_get (R : dict) :
  forall d ms k g, NoDup (dict_keys R) -> In (k, g) R ->
    dict_get (fst (fold_left reconcile_key R (d, ms))) k
    = Some (merged_entry d k g).
Proof.
  induction R as [|[k0 g0] R IH]; intros d ms k g Hnd Hin; [contradiction|].
  simpl in Hnd. inversion Hnd as [|? ? Hk0 HR]; subst.
  rewrite reconcile_cons. destruct Hin as [E | Hin].
  - inversion E; subst. rewrite reconcile_get_other by exact Hk0.
    rewrite reconcile_key_fst. apply dict_get_set_same.
  - assert (Hne : k0 <> k).
    { intros ->. apply Hk0. change k with (fst (k, g)). apply in_map, Hin. }
    rewrite (IH _ _ k g HR Hin). rewrite reconcile_key_fst.
    unfold merged_entry. rewrite dict_get_set_other by exact Hne. reflexivity.
Qed.

Lemma reconcile_keys (R : dict) :
  forall d ms, NoDup (dict_keys R) ->
    dict_keys (fst (fold_left reconcile_key R (d, ms)))
    = dict_keys d
        ++ filter (fun k => negb (key_in k (dict_keys d))) (dict_keys R).
Proof.
  induction R as [|[k0 g0] R IH]; intros d ms Hnd.
  - simpl. rewrite app_nil_r. reflexivity.
  - simpl in Hnd. inversion Hnd as [|? ? Hk0 HR]; subst.
    rewrite reconcile_cons, IH by exact HR. rewrite reconcile_key_fst.
    cbn [dict_keys map fst filter].
    destruct (dict_get d k0) as [p|] eqn:E.
    + rewrite (dict_keys_set_present d k0 _ p E).
      apply dict_get_Some_In, key_in_In in E. rewrite E. reflexivity.
    + rewrite dict_keys_set_absent by exact E.
      apply dict_get_None in E. pose proof E as E'.
      apply key_in_not_In in E'. rewrite E'. cbn [negb].
      rewrite <- app_assoc. cbn [app]. do 2 f_equal.
      apply filter_ext_in. intros k Hk. f_equal.
      unfold key_in. rewrite existsb_app. cbn [existsb].
      rewrite orb_false_r.
      assert (Hne : pystr_eqb k k0 = false).
      { apply pystr_eqb_neq. intros ->. contradiction. }
      rewrite Hne, orb_false_r. reflexivity.
Qed.

Lemma reconcile_mods_kept (R : dict) :
  forall d ms x, In x ms -> In x (snd (fold_left reconcile_key R (d, ms))).
Proof.
  induction R as [|[k0 g0] R IH]; intros d ms x Hx; [exact Hx|].
  rewrite reconcile_cons. apply IH.
  destruct (reconcile_key_snd d ms k0 g0) as (added & -> & _).
  apply in_or_app. left. exact Hx.
Qed.

Lemma reconcile_insert_recorded (R : dict) :
  forall d ms k g, NoDup (dict_keys R) -> In (k, g) R -> dict_get d k = None ->
    In (ModInsert k (comment g ++ line g))
       (snd (fold_left reconcile_key R (d, ms))).
Proof.
  induction R as [|[k0 g0] R IH]; intros d ms k g Hnd Hin Hk; [contradiction|].
  simpl in Hnd. inversion Hnd as [|? ? Hk0 HR]; subst.
  rewrite reconcile_cons. destruct Hin as [E | Hin].
  - inversion E; subst. apply reconcile_mods_kept.
    destruct (reconcile_key_snd d ms k g) as (added & -> & Hadd).
    rewrite (Hadd Hk). apply in_or_app. right. left. reflexivity.
  - apply IH; [exact HR | exact Hin |].
    rewrite reconcile_key_fst. rewrite dict_get_set_other; [exact Hk|].
    intros ->. apply Hk0. change k with (fst (k, g)). apply in_map, Hin.
Qed.

(** Nothing is modified when the target already carries every reference
    key under the reference comment. *)
Lemma reconcile_fixed (R : dict) :
  forall d ms,
    (forall k g, In (k, g) R ->
       exists p, dict_get d k = Some p /\ comment p = comment g) ->
    fold_left reconcile_key R (d, ms) = (d, ms).
Proof.
  induction R as [|[k0 g0] R IH]; intros d ms H; [reflexivity|].
  simpl. destruct (H k0 g0 (or_introl eq_refl)) as (p & Hp & Hc).
  rewrite Hp. rewrite Hc, pystr_eqb_refl. simpl.
  apply IH. intros k g Hin. apply H. right. exact Hin.
Qed.

Lemma filter_none {A} (f : A -> bool) (l : list A) :
  (forall x, In x l -> f x = false) -> filter f l = [].
Proof.
  induction l as [|a l IH]; intros H; simpl; [reflexivity|].
  rewrite (H a) by (left; reflexivity). apply IH.
  intros x Hx. apply H. right. exact Hx.
Qed.

Lemma superfluous_merged (T R : dict) :
  NoDup (dict_keys R) ->
  superfluous (fst (reconcile T R)) R = superfluous T R.
Proof.
  intros Hnd. unfold superfluous, reconcile. rewrite reconcile_keys by exact Hnd.
  rewrite filter_app.
  rewrite (filter_none _ (filter _ (dict_keys R))); [apply app_nil_r|].
  intros k Hk. apply filter_In in Hk.
  destruct Hk as [Hk _]. apply key_in_In in Hk. rewrite Hk. reflexivity.
Qed.

(** ** The validation *)

Lemma check_comment_ok (l c : pystr) (ks : list pystr) :
  check_comment l c ks = Ok tt <-> (forall k, In k ks -> contains k c = false).
Proof.
  induction ks as [|k0 ks IH]; simpl.
  - split; [intros _ k [] | reflexivity].
  - destruct (contains k0 c) eqn:E.
    + split; [discriminate|]. intros H.
      rewrite (H k0) in E by (left; reflexivity). discriminate.
    + rewrite IH. split.
      * intros H k [<- | Hk]; [exact E | apply H; exact Hk].
      * intros H k Hk. apply H. right. exact Hk.
Qed.

Lemma check_comment_err (l c : pystr) (ks : list pystr) :
  (exists k, In k ks /\ contains k c = true) ->
  exists k', check_comment l c ks = Err (CorruptionError k' l)
             /\ In k' ks /\ contains k' c = true.
Proof.
  induction ks as [|k0 ks IH]; intros (k & Hk & Hc); [contradiction|].
  simpl. destruct (contains k0 c) eqn:E.
  - exists k0. auto.
  - destruct Hk as [-> | Hk]; [congruence|].
    destruct IH as (k' & H1 & H2 & H3); [exists k; auto|].
    exists k'. auto.
Qed.

Lemma validate_err (d : dict) (all ls : list pystr) :
  (forall l, In l ls -> In l (dict_keys d)) ->
  (exists l k e, In l ls /\ In k all /\ dict_get d l = Some e
                 /\ contains k (comment e) = true) ->
  exists k' l' e',
    validate d all ls = Err (CorruptionError k' l')
    /\ In l' ls /\ In k' all /\ dict_get d l' = Some e'
    /\ contains k' (comment e') = true.
Proof.
  induction ls as [|l0 ls IH]; intros Hin (l & k & e & Hl & Hk & He & Hc);
    [contradiction|].
  destruct (dict_get_In d l0 (Hin l0 (or_introl eq_refl))) as (e0 & He0).
  simpl. unfold dict_item. rewrite He0. simpl.
  destruct (existsb (fun x => contains x (comment e0)) all) eqn:Ex.
  - apply existsb_exists in Ex.
    destruct (check_comment_err l0 (comment e0) all Ex) as (k' & H1 & H2 & H3).
    exists k', l0, e0. rewrite H1. simpl. repeat split; auto.
  - assert (Hok : forall x, In x all -> contains x (comment e0) = false).
    { intros x Hx. destruct (contains x (comment e0)) eqn:Cx; [|reflexivity].
      assert (Ht : existsb (fun x => contains x (comment e0)) all = true)
        by (apply existsb_exists; exists x; auto).
      congruence. }
    rewrite (proj2 (check_comment_ok l0 (comment e0) all) Hok). simpl.
    destruct Hl as [<- | Hl].
    + rewrite He in He0. inversion He0; subst.
      rewrite (Hok k Hk) in Hc. discriminate.
    + destruct IH as (k' & l' & e' & H1 & H2 & H3 & H4 & H5).
      * intros x Hx. apply Hin. right. exact Hx.
      * exists l, k, e. auto.
      * exists k', l', e'. repeat split; auto using in_cons.
Qed.

Lemma validate_ok (d : dict) (all ls : list pystr) :
  validate d all ls = Ok tt <->
  (forall l, In l ls ->
     exists e, dict_get d l = Some e
               /\ forall k, In k all -> contains k (comment e) = false).
Proof.
  induction ls as [|l0 ls IH]; simpl.
  - split; [intros _ l [] | reflexivity].
  - unfold dict_item. destruct (dict_get d l0) as [e0|] eqn:E0; simpl.
    + destruct (check_comment l0 (comment e0) all) as [[]|err] eqn:Ec; simpl.
      * rewrite IH. pose proof (proj1 (check_comment_ok _ _ _) Ec) as Hok.
        split.
        -- intros H l [<- | Hl]; [exists e0; auto | apply H; exact Hl].
        -- intros H l Hl. apply H. right. exact Hl.
      * split; [discriminate|]. intros H.
        destruct (H l0 (or_introl eq_refl)) as (e & He & Hno).
        rewrite E0 in He. inversion He; subst.
        apply (check_comment_ok l0) in Hno. congruence.
    + split; [discriminate|]. intros H.
      destruct (H l0 (or_introl eq_refl)) as (e & He & _). congruence.
Qed.

(** ** [update_strings_file_content] from its parts *)

Lemma update_parses_ok (T R : dict) nc mods ok :
  update_parses T R = Ok (nc, mods, ok) ->
  let M := fst (reconcile T R) in
  let all := set_of (dict_keys M ++ dict_keys R) in
  validate M all all = Ok tt
  /\ attach M [] (dict_keys R ++ superfluous M R) = Ok nc
  /\ mods = snd (reconcile T R)
  /\ before ok = dict_keys M
  /\ after ok = dict_keys R ++ superfluous M R.
Proof.
  unfold update_parses, superfluous. destruct (reconcile T R) as [M ms]. simpl.
  destruct (validate M _ _) as [[]|err]; simpl; [|discriminate].
  destruct (attach M [] _) as [c|err]; simpl; [|discriminate].
  intros H. inversion H; subst. simpl. auto.
Qed.

Lemma update_parses_invalid (T R : dict) err :
  let M := fst (reconcile T R) in
  let all := set_of (dict_keys M ++ dict_keys R) in
  validate M all all = Err err -> update_parses T R = Err err.
Proof.
  unfold update_parses. destruct (reconcile T R) as [M ms]. simpl.
  intros ->. reflexivity.
Qed.

Lemma update_of_parses regex content generated (T R : dict) :
  parse_strings_file_content regex content false = Ok T ->
  parse_strings_file_content regex generated true = Ok R ->
  update_strings_file_content regex content generated = update_parses T R.
Proof.
  intros HT HR. unfold update_strings_file_content. rewrite HT, HR. reflexivity.
Qed.

(** The keys checked are those of the target and of the reference. *)
Lemma all_keys_union (T R : dict) (k : pystr) :
  NoDup (dict_keys R) ->
  In k (set_of (dict_keys (fst (reconcile T R)) ++ dict_keys R))
  <-> In k (dict_keys T ++ dict_keys R).
Proof.
  intros Hnd. rewrite set_of_In. unfold reconcile.
  rewrite reconcile_keys by exact Hnd. rewrite !in_app_iff, filter_In. tauto.
Qed.

Lemma merged_has_all_keys (T R : dict) (k : pystr) :
  NoDup (dict_keys R) ->
  In k (dict_keys T ++ dict_keys R) ->
  In k (dict_keys (fst (reconcile T R))).
Proof.
  intros Hnd Hk. unfold reconcile. rewrite reconcile_keys by exact Hnd.
  rewrite in_app_iff, filter_In. apply in_app_or in Hk.
  destruct (key_in k (dict_keys T)) eqn:E.
  - left. apply key_in_In. exact E.
  - destruct Hk as [Hk | Hk]; [left; exact Hk | right; auto].
Qed.

(** The guard fires whenever a key of the union occurs in the merged
    comment of a key of the union; the reported pair is such a pair. *)
Lemma corruption_detected (T R : dict) (k j : pystr) (e : entry) :
  NoDup (dict_keys R) ->
  In k (dict_keys T ++ dict_keys R) ->
  In j (dict_keys T ++ dict_keys R) ->
  dict_get (fst (reconcile T R)) k = Some e ->
  contains j (comment e) = true ->
  exists k' l' e',
    update_parses T R = Err (CorruptionError k' l')
    /\ dict_get (fst (reconcile T R)) l' = Some e'
    /\ contains k' (comment e') = true.
Proof.
  intros Hnd Hk Hj He Hc.
  destruct (validate_err (fst (reconcile T R))
              (set_of (dict_keys (fst (reconcile T R)) ++ dict_keys R))
              (set_of (dict_keys (fst (reconcile T R)) ++ dict_keys R)))
    as (k' & l' & e' & Hv & _ & _ & He' & Hc').
  - intros l Hl. apply merged_has_all_keys; [exact Hnd|].
    apply all_keys_union; assumption.
  - exists k, j, e. repeat split; try assumption;
      apply all_keys_union; assumption.
  - exists k', l', e'. split; [|auto].
    apply update_parses_invalid. exact Hv.
Qed.

Lemma dict_set_In (d : dict) k e ke :
  In ke (dict_set d k e) -> In ke d \/ ke = (k, e).
Proof.
  induction d as [|[k0 e0] d IH]; simpl.
  - intros [<- | []]. right. reflexivity.
  - destruct (pystr_eqb k0 k) eqn:E; simpl.
    + apply pystr_eqb_eq in E. subst k0. intros [<- | H]; auto.
    + intros [<- | H]; auto. destruct (IH H); auto.
Qed.

Lemma dict_set_all_In (es : list (pystr * entry)) :
  forall d ke, In ke (dict_set_all d es) -> In ke d \/ In ke es.
Proof.
  induction es as [|[k e] es IH]; intros d ke H; [left; exact H|].
  rewrite dict_set_all_cons in H. destruct (IH _ _ H) as [H1 | H1].
  - destruct (dict_set_In _ _ _ _ H1) as [H2 | ->]; [left; exact H2|].
    right. left. reflexivity.
  - right. right. exact H1.
Qed.

(** ** Properties of the engine *)

Section Properties.

Variable regex : pystr -> option Match.

Lemma entries_origin rv (lines : list pystr) :
  forall acc k e, In (k, e) (entries regex rv acc lines) ->
    exists ln m, In ln lines /\ regex ln = Some m /\ group2 m = k
                 /\ line e = stored_line rv ln m.
Proof.
  induction lines as [|ln r IH]; intros acc k e H; [contradiction|].
  simpl in H. destruct (regex ln) as [m|] eqn:E.
  - destruct H as [H | H].
    + inversion H; subst. exists ln, m. simpl. auto.
    + destruct (IH _ _ _ H) as (l' & m' & H1 & H2).
      exists l', m'. split; [right; exact H1 | exact H2].
  - destruct (IH _ _ _ H) as (l' & m' & H1 & H2).
    exists l', m'. split; [right; exact H1 | exact H2].
Qed.

(** Every entry of a parse stems from a statement line of the text. *)
Lemma parse_entry_origin content rv (d : dict) k e :
  parse_strings_file_content regex content rv = Ok d ->
  dict_get d k = Some e ->
  exists ln m, In ln (splitlines true content) /\ regex ln = Some m
               /\ group2 m = k /\ line e = stored_line rv ln m.
Proof.
  unfold parse_strings_file_content.
  destruct (length (strip _) =? 0)%nat; [|discriminate].
  intros H Hk. inversion H as [Hd]. clear H.
  apply dict_get_in_dict in Hk. rewrite <- Hd, parse_lines_result in Hk.
  apply dict_set_all_In in Hk. destruct Hk as [[] | Hk].
  apply entries_origin in Hk. exact Hk.
Qed.

(** C1, as amended.  When the parse accepts a text in which no key is
    recognised twice, concatenating each entry's comment then line, in
    the parse's own key order, yields the text up to and including its
    last statement line, byte for byte; what follows that line is
    whitespace only and is not reproduced.  So the output is the whole
    text exactly when nothing follows the last statement line. *)
Theorem round_trip_up_to_last_statement
    (content : pystr) (d : dict) (pre post : list pystr) :
  parse_strings_file_content regex content false = Ok d ->
  NoDup (matched_keys regex (splitlines true content)) ->
  splitlines true content = pre ++ post ->
  (forall ln, In ln post -> regex ln = None) ->
  (pre = [] \/ exists pre' ln m, pre = pre' ++ [ln] /\ regex ln = Some m) ->
  attach d [] (dict_keys d) = Ok (concat pre)
  /\ concat pre ++ concat post = content
  /\ forallb isspace (concat post) = true.
Proof.
  intros Hparse Hnd Hsplit Hpost Hpre.
  assert (Hpre' : exists last,
             pre = [] /\ last = []
             \/ exists pre' ln m,
                 pre = pre' ++ [ln] /\ regex ln = Some m /\ last = group2 m).
  { destruct Hpre as [-> | (pre' & ln & m & -> & Hm)].
    - exists []. left. auto.
    - exists (group2 m). right. exists pre', ln, m. auto. }
  destruct Hpre' as (last & Hlast).
  destruct (parse_lines_split regex false pre post last Hpost Hlast)
    as [Hacc _].
  pose proof (NoDup_parse := parse_NoDup regex content false d Hparse).
  unfold parse_strings_file_content in Hparse. rewrite Hsplit, Hacc in Hparse.
  destruct (length (strip (concat post)) =? 0)%nat eqn:Hs; [|discriminate].
  injection Hparse as Hd. subst d.
  assert (Htext : concat pre ++ concat post = content).
  { pose proof (splitlines_concat content) as Hc.
    rewrite Hsplit, concat_app in Hc. exact Hc. }
  split; [|split; [exact Htext | apply strip_empty; exact Hs]].
  rewrite attach_own_keys by exact NoDup_parse.
  f_equal. rewrite <- Hsplit.
  rewrite parse_result_entries by exact Hnd.
  pose proof (entries_text regex (splitlines true content) []) as Het.
  rewrite <- parse_lines_acc_comment with (rv := false) (st := parse_init) in Het.
  rewrite Hsplit in Het at 2. rewrite Hacc in Het. simpl in Het.
  rewrite splitlines_concat, <- Htext in Het.
  apply app_inv_tail in Het. rewrite Htext in Het. exact Het.
Qed.

(** C2.  A key present in both the target parse and the reference parse
    keeps its stored statement line through the reconciliation: the
    merged entry of the key has the target's line, byte for byte. *)
Theorem common_key_line_preserved
    (content generated : pystr) (T R : dict) (k : pystr) (p : entry) :
  parse_strings_file_content regex content false = Ok T ->
  parse_strings_file_content regex generated true = Ok R ->
  dict_get T k = Some p ->
  In k (dict_keys R) ->
  exists e, dict_get (fst (reconcile T R)) k = Some e /\ line e = line p.
Proof.
  intros HT HR Hp Hk.
  pose proof (parse_NoDup regex generated true R HR) as Hnd.
  destruct (dict_get_In R k Hk) as (g & Hg).
  apply dict_get_in_dict in Hg.
  exists (merged_entry T k g). split.
  - apply reconcile_get; assumption.
  - unfold merged_entry. rewrite Hp. reflexivity.
Qed.

(** C3.  When the reconciliation succeeds, the merged key order is the
    reference key order followed by the keys of the target that the
    reference does not have, in the order they have in the target; the
    output text is attached in that order. *)
Theorem merged_key_order
    (content generated : pystr) (T R : dict) nc mods ok :
  parse_strings_file_content regex content false = Ok T ->
  parse_strings_file_content regex generated true = Ok R ->
  update_strings_file_content regex content generated = Ok (nc, mods, ok) ->
  after ok
  = dict_keys R
      ++ filter (fun k => negb (key_in k (dict_keys R))) (dict_keys T)
  /\ attach (fst (reconcile T R)) [] (after ok) = Ok nc.
Proof.
  intros HT HR Hup.
  pose proof (parse_NoDup regex generated true R HR) as Hnd.
  rewrite (update_of_parses regex content generated T R HT HR) in Hup.
  apply update_parses_ok in Hup. simpl in Hup.
  destruct Hup as (_ & Hatt & _ & _ & Hafter).
  rewrite superfluous_merged in Hafter, Hatt by exact Hnd.
  rewrite Hafter. split; [reflexivity | exact Hatt].
Qed.

(** C5.  A key of the reference parse that the target parse lacks is
    inserted with the reference entry itself, whose line is a statement
    line of the reference text with its value span cut out, and an
    insert modification carrying that entry's comment followed by its
    line is recorded and returned. *)
Theorem missing_key_inserted
    (content generated : pystr) (T R : dict) (k : pystr) :
  parse_strings_file_content regex content false = Ok T ->
  parse_strings_file_content regex generated true = Ok R ->
  In k (dict_keys R) ->
  ~ In k (dict_keys T) ->
  exists g ln m,
    dict_get R k = Some g
    /\ In ln (splitlines true generated) /\ regex ln = Some m
    /\ group2 m = k
    /\ line g = slice_to ln (start3 m) ++ slice_from ln (end3 m)
    /\ dict_get (fst (reconcile T R)) k = Some g
    /\ In (ModInsert k (comment g ++ line g)) (snd (reconcile T R))
    /\ forall nc mods ok,
         update_strings_file_content regex content generated
           = Ok (nc, mods, ok) ->
         In (ModInsert k (comment g ++ line g)) mods.
Proof.
  intros HT HR Hk HnT.
  pose proof (parse_NoDup regex generated true R HR) as Hnd.
  destruct (dict_get_In R k Hk) as (g & Hg).
  destruct (parse_entry_origin generated true R k g HR Hg)
    as (ln & m & Hln & Hm & Hkey & Hline).
  pose proof (dict_get_in_dict R k g Hg) as Hin.
  pose proof (proj2 (dict_get_None T k) HnT) as Habs.
  assert (Hmod : In (ModInsert k (comment g ++ line g)) (snd (reconcile T R)))
    by (apply reconcile_insert_recorded; assumption).
  exists g, ln, m. repeat split; try assumption.
  - unfold reconcile. rewrite (reconcile_get R T [] k g Hnd Hin).
    unfold merged_entry. rewrite Habs. reflexivity.
  - intros nc mods ok Hup.
    rewrite (update_of_parses regex content generated T R HT HR) in Hup.
    apply update_parses_ok in Hup. simpl in Hup.
    destruct Hup as (_ & _ & -> & _). exact Hmod.
Qed.

(** C6.  Split the lines of the text at the last statement line.  If the
    text after it holds a code point that is not whitespace, the parse
    fails with the trailing-content error, which names the key of that
    last statement line (the empty string when no line is a statement);
    if that text is empty or whitespace only, the parse succeeds. *)
Theorem trailing_content_check
    (content : pystr) (remove_value : bool)
    (pre post : list pystr) (last : pystr) :
  splitlines true content = pre ++ post ->
  (forall ln, In ln post -> regex ln = None) ->
  (pre = [] /\ last = []
   \/ exists pre' ln m,
       pre = pre' ++ [ln] /\ regex ln = Some m /\ last = group2 m) ->
  ((exists c, In c (concat post) /\ isspace c = false) ->
   parse_strings_file_content regex content remove_value
     = Err (TrailingContentError last))
  /\ ((forall c, In c (concat post) -> isspace c = true) ->
      exists d, parse_strings_file_content regex content remove_value = Ok d).
Proof.
  intros Hsplit Hpost Hpre.
  destruct (parse_lines_split regex remove_value pre post last Hpost Hpre)
    as [Hacc Hlast].
  unfold parse_strings_file_content. rewrite Hsplit, Hacc, Hlast.
  destruct (length (strip (concat post)) =? 0)%nat eqn:Hs.
  - apply strip_empty in Hs. split.
    + intros (c & Hc & Hns).
      rewrite (proj1 (forallb_isspace_In _) Hs c Hc) in Hns. discriminate.
    + intros _. eexists. reflexivity.
  - split; [reflexivity|]. intros Hall.
    apply forallb_isspace_In, strip_empty in Hall. congruence.
Qed.

(** C7.  If, in the merged parse, the comment of a key [k] of the union
    of the target and reference keys holds the literal text of another
    key [j] of that union, the reconciliation fails with the corruption
    error and returns no output text; the pair it reports is a key and a
    comment holding it. *)
Theorem foreign_key_in_comment_rejected
    (content generated : pystr) (T R : dict) (k j : pystr) (e : entry) :
  parse_strings_file_content regex content false = Ok T ->
  parse_strings_file_content regex generated true = Ok R ->
  In k (dict_keys T ++ dict_keys R) ->
  In j (dict_keys T ++ dict_keys R) ->
  j <> k ->
  dict_get (fst (reconcile T R)) k = Some e ->
  (exists a b, comment e = a ++ j ++ b) ->
  exists k' l' e',
    update_strings_file_content regex content generated
      = Err (CorruptionError k' l')
    /\ dict_get (fst (reconcile T R)) l' = Some e'
    /\ contains k' (comment e') = true.
Proof.
  intros HT HR Hk Hj _ He Hsub.
  rewrite (update_of_parses regex content generated T R HT HR).
  apply (corruption_detected T R k j e); try assumption.
  - exact (parse_NoDup regex generated true R HR).
  - apply contains_iff. exact Hsub.
Qed.

(** C10.  The check pairs every key with itself as well: if, in the
    merged parse, the comment of a key of the union holds that key's own
    literal text, the reconciliation fails with the corruption error. *)
Theorem own_key_in_comment_rejected
    (content generated : pystr) (T R : dict) (k : pystr) (e : entry) :
  parse_strings_file_content regex content false = Ok T ->
  parse_strings_file_content regex generated true = Ok R ->
  In k (dict_keys T ++ dict_keys R) ->
  dict_get (fst (reconcile T R)) k = Some e ->
  (exists a b, comment e = a ++ k ++ b) ->
  exists k' l' e',
    update_strings_file_content regex content generated
      = Err (CorruptionError k' l')
    /\ dict_get (fst (reconcile T R)) l' = Some e'
    /\ contains k' (comment e') = true.
Proof.
  intros HT HR Hk He Hsub.
  rewrite (update_of_parses regex content generated T R HT HR).
  apply (corruption_detected T R k k e); try assumption.
  - exact (parse_NoDup regex generated true R HR).
  - apply contains_iff. exact Hsub.
Qed.

End Properties.

(** ** Parsing a serialised parse back *)

Section ReadBack.

Variable regex : pystr -> option Match.

Lemma entries_skip rv (cl : list pystr) :
  forall acc rest, (forall l, In l cl -> regex l = None) ->
    entries regex rv acc (cl ++ rest)
    = entries regex rv (acc ++ concat cl) rest.
Proof.
  induction cl as [|l cl IH]; intros acc rest H; simpl.
  - rewrite app_nil_r. reflexivity.
  - rewrite (H l) by (left; reflexivity).
    rewrite IH by (intros x Hx; apply H; right; exact Hx).
    rewrite <- app_assoc. reflexivity.
Qed.

Lemma pending_skip (cl : list pystr) :
  forall acc rest, (forall l, In l cl -> regex l = None) ->
    pending regex acc (cl ++ rest) = pending regex (acc ++ concat cl) rest.
Proof.
  induction cl as [|l cl IH]; intros acc rest H; simpl.
  - rewrite app_nil_r. reflexivity.
  - rewrite (H l) by (left; reflexivity).
    rewrite IH by (intros x Hx; apply H; right; exact Hx).
    rewrite <- app_assoc. reflexivity.
Qed.

Lemma comment_lines_ok_nil : comment_lines_ok regex [].
Proof. exists []. split; [reflexivity | intros l []]. Qed.

Lemma comment_lines_ok_snoc (acc ln : pystr) :
  comment_lines_ok regex acc -> closed_line ln = true -> regex ln = None ->
  comment_lines_ok regex (acc ++ ln).
Proof.
  intros (cl & -> & Hcl) Hc Hn. exists (cl ++ [ln]). split.
  - rewrite concat_app. simpl. rewrite app_nil_r. reflexivity.
  - intros l Hl. apply in_app_or in Hl. destruct Hl as [Hl | [<- | []]]; auto.
Qed.

(** The entries of closed lines whose stored lines are kept statement
    lines read back as themselves. *)
Lemma entries_lines_ok rv (lines : list pystr) :
  (forall ln, In ln lines -> closed_line ln = true) ->
  (forall ln m, In ln lines -> regex ln = Some m ->
     closed_line (stored_line rv ln m) = true
     /\ exists m', regex (stored_line rv ln m) = Some m'
                   /\ group2 m' = group2 m) ->
  forall acc k e, comment_lines_ok regex acc ->
    In (k, e) (entries regex rv acc lines) -> entry_lines_ok regex k e.
Proof.
  induction lines as [|ln r IH]; intros Hclosed Hkept acc k e Hacc Hin;
    [contradiction|].
  assert (IH' : forall acc, comment_lines_ok regex acc ->
                  In (k, e) (entries regex rv acc r) -> entry_lines_ok regex k e).
  { intros acc'. apply IH.
    - intros x Hx. apply Hclosed. right. exact Hx.
    - intros x m Hx. apply Hkept. right. exact Hx. }
  simpl in Hin. destruct (regex ln) as [m|] eqn:E.
  - destruct Hin as [Hin | Hin].
    + inversion Hin; subst. clear Hin.
      destruct (Hkept ln m (or_introl eq_refl) E) as (Hc & m' & Hm' & Hk).
      split; [exact Hacc | split; [exact Hc | exists m'; auto]].
    + apply (IH' []); [apply comment_lines_ok_nil | exact Hin].
  - apply (IH' (acc ++ ln)); [|exact Hin].
    apply comment_lines_ok_snoc; [exact Hacc | | exact E].
    apply Hclosed. left. reflexivity.
Qed.

Lemma strip_stable_line_kept (ln : pystr) (m : Match) :
  strip_stable_line regex ln = true -> regex ln = Some m ->
  closed_line (stored_line true ln m) = true
  /\ exists m', regex (stored_line true ln m) = Some m'
                /\ group2 m' = group2 m.
Proof.
  unfold strip_stable_line. intros H Hm. rewrite Hm in H.
  apply andb_true_iff in H. destruct H as [Hc Hr]. split; [exact Hc|].
  destruct (regex (stored_line true ln m)) as [m'|]; [|discriminate].
  exists m'. split; [reflexivity | apply pystr_eqb_eq; exact Hr].
Qed.

(** The entries of a parse of a well-terminated text read back as
    themselves; for a value-stripped parse, when stripping keeps the
    statement lines. *)
Lemma parse_lines_ok content rv (d : dict) :
  parse_strings_file_content regex content rv = Ok d ->
  well_terminated content = true ->
  (rv = true -> strip_stable regex content = true) ->
  forall k e, dict_get d k = Some e -> entry_lines_ok regex k e.
Proof.
  intros Hparse Hwt Hss k e Hk.
  unfold parse_strings_file_content in Hparse.
  destruct (length (strip _) =? 0)%nat; [|discriminate].
  injection Hparse as Hd. subst d.
  apply dict_get_in_dict in Hk. rewrite parse_lines_result in Hk.
  apply dict_set_all_In in Hk. destruct Hk as [[] | Hk].
  unfold well_terminated in Hwt. rewrite forallb_forall in Hwt.
  apply (entries_lines_ok rv (splitlines true content) Hwt) with (acc := []);
    [| apply comment_lines_ok_nil | exact Hk].
  intros ln m Hln Hm. destruct rv.
  - apply strip_stable_line_kept; [|exact Hm].
    specialize (Hss eq_refl). unfold strip_stable in Hss.
    rewrite forallb_forall in Hss. apply Hss. exact Hln.
  - simpl. split; [apply Hwt; exact Hln | exists m; auto].
Qed.

(** The text of such entries splits into the lines they were made of. *)
Lemma serialized_lines (es : list (pystr * entry)) :
  (forall ke, In ke es -> entry_lines_ok regex (fst ke) (snd ke)) ->
  exists lines,
    concat lines = flat_map piece es
    /\ forallb closed_line lines = true
    /\ entries regex false [] lines = es
    /\ pending regex [] lines = [].
Proof.
  induction es as [|[k e] es IH]; intros H.
  - exists []. simpl. auto.
  - destruct IH as (lines & Hcat & Hcl & Hent & Hpend).
    { intros ke Hke. apply H. right. exact Hke. }
    destruct (H (k, e) (or_introl eq_refl))
      as ((cl & Hcom & Hcl_ok) & Hline & m & Hm & Hkey).
    simpl in Hcom, Hline, Hm, Hkey.
    exists (cl ++ line e :: lines). repeat split.
    + rewrite concat_app. simpl. rewrite Hcat. unfold piece at 2. simpl.
      rewrite Hcom, <- app_assoc. reflexivity.
    + rewrite forallb_app. cbn [forallb].
      apply andb_true_iff. split; [|apply andb_true_iff; split; assumption].
      apply forallb_forall. intros l Hl. apply Hcl_ok. exact Hl.
    + rewrite entries_skip by (intros l Hl; apply Hcl_ok; exact Hl).
      simpl. rewrite Hm, Hent, Hkey, <- Hcom. destruct e; reflexivity.
    + rewrite pending_skip by (intros l Hl; apply Hcl_ok; exact Hl).
      simpl. rewrite Hm. exact Hpend.
Qed.

(** Parsing the serialisation of such entries, with distinct keys, gives
    the entries back in their order. *)
Lemma parse_serialized (es : list (pystr * entry)) :
  NoDup (map fst es) ->
  (forall ke, In ke es -> entry_lines_ok regex (fst ke) (snd ke)) ->
  parse_strings_file_content regex (flat_map piece es) false = Ok es.
Proof.
  intros Hnd Hok.
  destruct (serialized_lines es Hok) as (lines & Hcat & Hcl & Hent & Hpend).
  unfold parse_strings_file_content.
  rewrite <- Hcat, splitlines_concat_closed by exact Hcl.
  rewrite parse_lines_acc_comment. simpl. rewrite Hpend. simpl.
  rewrite parse_result_entries.
  - rewrite Hent. reflexivity.
  - rewrite <- (entries_keys regex false lines []), Hent. exact Hnd.
Qed.

End ReadBack.

(** ** Reconciling a reconciled text again *)

Lemma attach_inv (d : dict) (ks : list pystr) :
  forall c nc, attach d c ks = Ok nc ->
    exists es, map fst es = ks
               /\ (forall ke, In ke es -> dict_get d (fst ke) = Some (snd ke))
               /\ nc = c ++ flat_map piece es.
Proof.
  induction ks as [|k ks IH]; intros c nc H; simpl in H.
  - exists []. injection H as <-. simpl. rewrite app_nil_r.
    repeat split. intros ke [].
  - unfold dict_item in H. destruct (dict_get d k) as [e|] eqn:E;
      [|discriminate].
    simpl in H. destruct (IH _ _ H) as (es & Hk & Hget & ->).
    exists ((k, e) :: es). simpl. repeat split.
    + rewrite Hk. reflexivity.
    + intros ke [<- | Hke]; [exact E | apply Hget; exact Hke].
    + unfold piece at 2. simpl. rewrite <- !app_assoc. reflexivity.
Qed.

Lemma merged_entry_comment (T : dict) (k : pystr) (g : entry) :
  comment (merged_entry T k g) = comment g.
Proof. unfold merged_entry. destruct (dict_get T k); reflexivity. Qed.

Lemma filter_all {A} (f : A -> bool) (l : list A) :
  (forall x, In x l -> f x = true) -> filter f l = l.
Proof.
  induction l as [|a l IH]; intros H; simpl; [reflexivity|].
  rewrite (H a) by (left; reflexivity). f_equal. apply IH.
  intros x Hx. apply H. right. exact Hx.
Qed.

(** The merged order lists each key once. *)
Lemma merged_order_NoDup (T R : dict) :
  NoDup (dict_keys T) -> NoDup (dict_keys R) ->
  NoDup (dict_keys R ++ superfluous T R).
Proof.
  intros HT HR. apply NoDup_app; [exact HR | apply NoDup_filter; exact HT |].
  intros k Hk Hs. apply filter_In in Hs. destruct Hs as [_ Hs].
  apply key_in_In in Hk. rewrite Hk in Hs. discriminate.
Qed.

Lemma superfluous_of_merged_order (T R : dict) (es : dict) :
  dict_keys es = dict_keys R ++ superfluous T R ->
  superfluous es R = superfluous T R.
Proof.
  intros Hk. unfold superfluous at 1. rewrite Hk, filter_app.
  rewrite (filter_none _ (dict_keys R)).
  - simpl. apply filter_all. intros k Hs. apply filter_In in Hs. tauto.
  - intros k Hin. apply key_in_In in Hin. rewrite Hin. reflexivity.
Qed.

Section Idempotence.

Variable regex : pystr -> option Match.

Lemma update_ok_parses content generated x :
  update_strings_file_content regex content generated = Ok x ->
  exists T R,
    parse_strings_file_content regex content false = Ok T
    /\ parse_strings_file_content regex generated true = Ok R
    /\ update_parses T R = Ok x.
Proof.
  unfold update_strings_file_content.
  destruct (parse_strings_file_content regex content false) as [T|];
    [|discriminate].
  destruct (parse_strings_file_content regex generated true) as [R|];
    [|discriminate].
  simpl. intros H. exists T, R. auto.
Qed.

(** The merged entries read back as themselves when those of the target
    and of the reference do. *)
Lemma merged_lines_ok (T R : dict) :
  NoDup (dict_keys R) ->
  (forall k e, dict_get T k = Some e -> entry_lines_ok regex k e) ->
  (forall k e, dict_get R k = Some e -> entry_lines_ok regex k e) ->
  forall k e, dict_get (fst (reconcile T R)) k = Some e ->
    entry_lines_ok regex k e.
Proof.
  intros Hnd HT HR k e He.
  destruct (dict_get R k) as [g|] eqn:Eg.
  - pose proof (dict_get_in_dict R k g Eg) as Hin.
    unfold reconcile in He. rewrite (reconcile_get R T [] k g Hnd Hin) in He.
    injection He as <-. destruct (HR k g Eg) as (Hc & Hl & Hm).
    unfold merged_entry. destruct (dict_get T k) as [p|] eqn:Ep.
    + destruct (HT k p Ep) as (_ & Hlp & Hmp).
      split; [exact Hc | split; [exact Hlp | exact Hmp]].
    + split; [exact Hc | split; [exact Hl | exact Hm]].
  - apply dict_get_None in Eg.
    unfold reconcile in He. rewrite reconcile_get_other in He by exact Eg.
    apply HT. exact He.
Qed.

(** X26.  Where the raw concatenation cannot fuse lines the
    reconciliation is idempotent.  Let every line of the target and of the
    reference text end in a line break other than a bare carriage return,
    and let every value-stripped statement line of the reference still be
    a statement line of its key.  Then running the reconciliation on the
    output text of a successful run, with the same reference, succeeds,
    returns the same text, an empty modification list and the key order of
    the first run. *)
Theorem reconcile_twice
    (content generated : pystr) nc mods ok :
  well_terminated content = true ->
  well_terminated generated = true ->
  strip_stable regex generated = true ->
  update_strings_file_content regex content generated = Ok (nc, mods, ok) ->
  update_strings_file_content regex nc generated
  = Ok (nc, [], {| before := after ok; after := after ok |}).
Proof.
  intros HwtT HwtR Hss Hup.
  destruct (update_ok_parses content generated _ Hup)
    as (T & R & HT & HR & Hup').
  pose proof (parse_NoDup regex content false T HT) as HndT.
  pose proof (parse_NoDup regex generated true R HR) as HndR.
  apply update_parses_ok in Hup'. simpl in Hup'.
  destruct Hup' as (Hval & Hatt & _ & _ & Hafter).
  rewrite superfluous_merged in Hatt, Hafter by exact HndR.
  set (M := fst (reconcile T R)) in *.
  set (ks := dict_keys R ++ superfluous T R) in *.
  rewrite Hafter. clear Hafter Hup.
  destruct (attach_inv M ks [] nc Hatt) as (es & Hkeys & Hget & Hnc).
  simpl in Hnc. subst nc.
  assert (Hnd : NoDup (map fst es))
    by (rewrite Hkeys; apply merged_order_NoDup; assumption).
  assert (Hok : forall ke, In ke es -> entry_lines_ok regex (fst ke) (snd ke)).
  { intros ke Hke. apply (merged_lines_ok T R HndR).
    - apply (parse_lines_ok regex content false T HT HwtT). discriminate.
    - apply (parse_lines_ok regex generated true R HR HwtR). intros _. exact Hss.
    - apply Hget. exact Hke. }
  assert (Hes : forall k, In k ks -> dict_get es k = dict_get M k).
  { intros k Hk. rewrite <- Hkeys in Hk. apply in_map_iff in Hk.
    destruct Hk as ([k' e] & Hfst & Hin). simpl in Hfst. subst k'.
    rewrite (dict_get_of_In es k e Hnd Hin).
    symmetry. apply (Hget (k, e) Hin). }
  assert (HR_ks : forall k, In k (dict_keys R) -> In k ks)
    by (intros k Hk; apply in_or_app; left; exact Hk).
  assert (Hks_all : forall k, In k ks ->
            In k (set_of (dict_keys M ++ dict_keys R))).
  { intros k Hk. apply all_keys_union; [exact HndR|].
    apply in_app_or in Hk. apply in_or_app. destruct Hk as [Hk | Hk].
    - right. exact Hk.
    - left. apply filter_In in Hk. tauto. }
  rewrite (update_of_parses regex (flat_map piece es) generated es R
             (parse_serialized regex es Hnd Hok) HR).
  assert (Hfix : reconcile es R = (es, [])).
  { apply reconcile_fixed. intros k g Hin.
    assert (Hk : In k ks).
    { apply HR_ks. change k with (fst (k, g)). apply in_map. exact Hin. }
    exists (merged_entry T k g). split; [|apply merged_entry_comment].
    rewrite (Hes k Hk). apply reconcile_get; assumption. }
  unfold update_parses. rewrite Hfix.
  fold (superfluous es R).
  rewrite (superfluous_of_merged_order T R es Hkeys).
  change (dict_keys es) with (map fst es). rewrite Hkeys. fold ks.
  assert (Hval' : validate es (set_of (ks ++ dict_keys R))
                    (set_of (ks ++ dict_keys R)) = Ok tt).
  { apply validate_ok. intros l Hl.
    assert (Hlk : In l ks).
    { apply set_of_In, in_app_or in Hl. destruct Hl; auto. }
    destruct (proj1 (validate_ok M _ _) Hval l (Hks_all l Hlk))
      as (e & He & Hno).
    exists e. split; [rewrite (Hes l Hlk); exact He|].
    intros k Hk. apply Hno. apply Hks_all.
    apply set_of_In, in_app_or in Hk. destruct Hk; auto. }
  rewrite Hval'. simpl.
  rewrite <- Hkeys. change (map fst es) with (dict_keys es).
  rewrite attach_own_keys by exact Hnd. reflexivity.
Qed.

End Idempotence.

(** ** Where [splitlines] cuts *)

Lemma In_removelast {A} (l : list A) (x : A) : In x (removelast l) -> In x l.
Proof.
  induction l as [|a l IH]; simpl; [tauto|].
  destruct l as [|b l]; [intros []|].
  intros [<- | H]; [left; reflexivity | right; apply IH; exact H].
Qed.

Lemma In_removelast_middle {A} (pre post : list A) (x : A) :
  post <> [] -> In x (removelast (pre ++ x :: post)).
Proof.
  intros Hpost. rewrite removelast_app by discriminate.
  apply in_or_app. right. destruct post as [|y q]; [contradiction|].
  left. reflexivity.
Qed.

(** Inside a line of [splitlines(True)], before its last code point, the
    only line break there can be is the CR of a final CR LF. *)
Lemma splitlines_from_inner_breaks (n : nat) :
  forall s cur, length s <= n ->
    (forall x, In x cur -> is_linebreak x = false) ->
    forall ln, In ln (splitlines_from true cur s) ->
    forall x, In x (removelast ln) -> is_linebreak x = true -> x = CR.
Proof.
  induction n as [|n IH]; intros s cur Hn Hcur ln Hln x Hx Hb.
  - destruct s; [|simpl in Hn; lia]. simpl in Hln.
    destruct cur as [|a cur']; [contradiction|].
    destruct Hln as [<- | []]. apply In_removelast in Hx.
    rewrite (Hcur x Hx) in Hb. discriminate.
  - destruct s as [|c rest].
    + simpl in Hln. destruct cur as [|a cur']; [contradiction|].
      destruct Hln as [<- | []]. apply In_removelast in Hx.
      rewrite (Hcur x Hx) in Hb. discriminate.
    + simpl in Hn. rewrite splitlines_from_cons in Hln.
      destruct (is_linebreak c) eqn:Ec.
      * destruct rest as [|c2 rest2].
        { destruct Hln as [<- | []]. rewrite removelast_last in Hx.
          rewrite (Hcur x Hx) in Hb. discriminate. }
        simpl in Hn.
        destruct ((c =? CR)%N && (c2 =? LF)%N) eqn:Ecr;
          destruct Hln as [<- | Hln].
        -- change [c; c2] with ([c] ++ [c2]) in Hx.
           rewrite app_assoc, removelast_last in Hx.
           apply in_app_or in Hx. destruct Hx as [Hx | [<- | []]].
           ++ rewrite (Hcur x Hx) in Hb. discriminate.
           ++ apply andb_true_iff in Ecr. apply N.eqb_eq. tauto.
        -- apply (IH rest2 [] ltac:(lia) ltac:(intros ? []) ln Hln x Hx Hb).
        -- rewrite removelast_last in Hx.
           rewrite (Hcur x Hx) in Hb. discriminate.
        -- apply (IH (c2 :: rest2) [] ltac:(simpl; lia) ltac:(intros ? [])
                    ln Hln x Hx Hb).
      * apply (IH rest (cur ++ [c]) ltac:(lia)) with (ln := ln); try assumption.
        intros y Hy. apply in_app_or in Hy.
        destruct Hy as [Hy | [<- | []]]; [apply Hcur; exact Hy | exact Ec].
Qed.

(** Whatever the statement pattern, no stored statement line holds U+2028
    before its last code point: a statement whose value holds U+2028 is
    never stored whole. *)
Theorem stored_line_never_spans_separator
    (regex : pystr -> option Match) (content : pystr) (d : dict)
    (k : pystr) (e : entry) (pre post : pystr) :
  parse_strings_file_content regex content false = Ok d ->
  dict_get d k = Some e ->
  line e = pre ++ LINE_SEPARATOR :: post ->
  post = [].
Proof.
  intros Hparse Hk Hline.
  destruct (parse_entry_origin regex content false d k e Hparse Hk)
    as (ln & m & Hln & _ & _ & Hstored).
  simpl in Hstored. rewrite Hstored in Hline.
  destruct post as [|y q]; [reflexivity|]. exfalso.
  assert (Hcr : LINE_SEPARATOR = CR).
  { apply (splitlines_from_inner_breaks (length content) content []
             (Nat.le_refl _) ltac:(intros ? []) ln Hln).
    - rewrite Hline. apply In_removelast_middle. discriminate.
    - reflexivity. }
  discriminate.
Qed.

(** ** The engine on concrete documents *)

(** The engine on the target and reference texts of the scenario. *)
Example scenario_run :
  update_doc scenario_target scenario_reference
  = Ok (scenario_output, scenario_mods, scenario_order).
Proof. vm_compute. reflexivity. Qed.

(** C1 as stated fails: the parse accepts a statement line followed by a
    blank line, and the serialisation of the parse lacks the blank line. *)
Lemma round_trip_loses_blank_tail :
  exists d, parse_doc doc_blank_tail false = Ok d
            /\ attach d [] (dict_keys d) = Ok (stmt_nl "A" "x")
            /\ attach d [] (dict_keys d) <> Ok doc_blank_tail.
Proof.
  eexists. split; [vm_compute; reflexivity|].
  split; [vm_compute; reflexivity | vm_compute; discriminate].
Qed.

Lemma round_trip_up_to_last_statement_witness :
  attach doc_two_parse [] (dict_keys doc_two_parse) = Ok (concat doc_two_pre)
  /\ concat doc_two_pre ++ concat doc_two_post = doc_two
  /\ forallb isspace (concat doc_two_post) = true.
Proof.
  apply (round_trip_up_to_last_statement strings_file_regex doc_two
           doc_two_parse doc_two_pre doc_two_post).
  - vm_compute. reflexivity.
  - vm_compute. repeat constructor; simpl; intuition discriminate.
  - vm_compute. reflexivity.
  - intros ln [<- | []]. vm_compute. reflexivity.
  - right. exists [txt "/* c */" ++ [LF]; stmt_nl "A" "x"], (stmt_nl "B" "y").
    eexists. split; [reflexivity | vm_compute; reflexivity].
Defined.

Lemma common_key_line_preserved_witness :
  exists e, dict_get (fst (reconcile scenario_T scenario_R)) (txt "A") = Some e
            /\ line e = stmt_nl "A" "Hello".
Proof.
  apply (common_key_line_preserved strings_file_regex
           scenario_target scenario_reference scenario_T scenario_R (txt "A")
           {| line := stmt_nl "A" "Hello";
              comment := txt "/* old note */" ++ [LF] |}).
  - vm_compute. reflexivity.
  - vm_compute. reflexivity.
  - vm_compute. reflexivity.
  - vm_compute. auto.
Defined.

Lemma merged_key_order_witness :
  after scenario_order
  = dict_keys scenario_R
      ++ filter (fun k => negb (key_in k (dict_keys scenario_R)))
                (dict_keys scenario_T)
  /\ attach (fst (reconcile scenario_T scenario_R)) [] (after scenario_order)
     = Ok scenario_output.
Proof.
  apply (merged_key_order strings_file_regex scenario_target
           scenario_reference scenario_T scenario_R
           scenario_output scenario_mods scenario_order);
    vm_compute; reflexivity.
Defined.

Lemma missing_key_inserted_witness :
  exists g ln m,
    dict_get scenario_R (txt "C") = Some g
    /\ In ln (splitlines true scenario_reference)
    /\ strings_file_regex ln = Some m
    /\ group2 m = txt "C"
    /\ line g = slice_to ln (start3 m) ++ slice_from ln (end3 m)
    /\ dict_get (fst (reconcile scenario_T scenario_R)) (txt "C") = Some g
    /\ In (ModInsert (txt "C") (comment g ++ line g))
          (snd (reconcile scenario_T scenario_R))
    /\ forall nc mods ok,
         update_strings_file_content strings_file_regex
           scenario_target scenario_reference = Ok (nc, mods, ok) ->
         In (ModInsert (txt "C") (comment g ++ line g)) mods.
Proof.
  apply (missing_key_inserted strings_file_regex scenario_target
           scenario_reference scenario_T scenario_R (txt "C")).
  - vm_compute. reflexivity.
  - vm_compute. reflexivity.
  - vm_compute. auto.
  - vm_compute. intuition discriminate.
Defined.

Lemma trailing_content_check_witness :
  parse_doc doc_junk_tail false = Err (TrailingContentError (txt "A"))
  /\ exists d, parse_doc doc_blank_tail false = Ok d.
Proof.
  assert (Hlast : [stmt_nl "A" "x"] = [] /\ txt "A" = []
                  \/ exists pre' ln m,
                      [stmt_nl "A" "x"] = pre' ++ [ln]
                      /\ strings_file_regex ln = Some m
                      /\ txt "A" = group2 m).
  { right. exists [], (stmt_nl "A" "x").
    eexists. split; [reflexivity | split; vm_compute; reflexivity]. }
  split.
  - destruct (trailing_content_check strings_file_regex doc_junk_tail false
                [stmt_nl "A" "x"] [txt "junk"] (txt "A")) as [Hfail _].
    + vm_compute. reflexivity.
    + intros ln [<- | []]. vm_compute. reflexivity.
    + exact Hlast.
    + apply Hfail. exists 106%N. split; [vm_compute; auto | reflexivity].
  - destruct (trailing_content_check strings_file_regex doc_blank_tail false
                [stmt_nl "A" "x"] [[LF]] (txt "A")) as [_ Hpass].
    + vm_compute. reflexivity.
    + intros ln [<- | []]. vm_compute. reflexivity.
    + exact Hlast.
    + apply Hpass. intros c [<- | []]. reflexivity.
Defined.

(** C4: the code at a target whose last line has no line break and a
    reference that puts that line before another.  The first run attaches
    the two statements without a line break between them, so they stand on
    one line of its output; the second run, on that output and the same
    reference, reads one statement where there were two and records an
    insert of the key [A], whose statement is in the text, where an empty
    modification list is due. *)
Lemma reconcile_twice_modifies_again :
  update_doc doc_open_end doc_swapped
  = Ok (doc_open_end_output, [],
        {| before := [txt "A"; txt "B"]; after := [txt "B"; txt "A"] |})
  /\ update_doc doc_open_end_output doc_swapped
     = Ok (doc_open_end_output ++ stmt_nl "A" EmptyString,
           [ModInsert (txt "A") (stmt_nl "A" EmptyString)],
           {| before := [txt "B"; txt "A"]; after := [txt "B"; txt "A"] |}).
Proof. split; vm_compute; reflexivity. Qed.

(** A bare CR at the end of a line fuses with a comment that starts with a
    line feed: each run finds the comment of [B] changed and adds a blank
    line. *)
Example reconcile_twice_bare_cr :
  update_doc doc_bare_cr doc_blank_comment
  = Ok (stmt "A" "x" ++ [CR; LF] ++ stmt_nl "B" "y",
        [ModComment (txt "B") [] [LF]],
        {| before := [txt "A"; txt "B"]; after := [txt "A"; txt "B"] |})
  /\ update_doc (stmt "A" "x" ++ [CR; LF] ++ stmt_nl "B" "y") doc_blank_comment
     = Ok (stmt "A" "x" ++ [CR; LF; LF] ++ stmt_nl "B" "y",
           [ModComment (txt "B") [] [LF]],
           {| before := [txt "A"; txt "B"]; after := [txt "A"; txt "B"] |}).
Proof. split; vm_compute; reflexivity. Qed.

Lemma reconcile_twice_witness :
  update_doc scenario_output scenario_reference
  = Ok (scenario_output, [],
        {| before := after scenario_order; after := after scenario_order |}).
Proof.
  apply (reconcile_twice strings_file_regex scenario_target
           scenario_reference scenario_output scenario_mods scenario_order);
    vm_compute; reflexivity.
Defined.

Lemma foreign_key_in_comment_rejected_witness :
  exists k' l' e',
    update_doc doc_foreign_key doc_foreign_key = Err (CorruptionError k' l')
    /\ dict_get (fst (reconcile doc_foreign_key_parse doc_foreign_key_stripped)) l'
       = Some e'
    /\ contains k' (comment e') = true.
Proof.
  apply (foreign_key_in_comment_rejected strings_file_regex
           doc_foreign_key doc_foreign_key
           doc_foreign_key_parse doc_foreign_key_stripped (txt "B") (txt "A")
           {| line := stmt_nl "B" "y"; comment := txt "/* see A */" ++ [LF] |}).
  - vm_compute. reflexivity.
  - vm_compute. reflexivity.
  - vm_compute. auto.
  - vm_compute. auto.
  - vm_compute. discriminate.
  - vm_compute. reflexivity.
  - exists (txt "/* see "), (txt " */" ++ [LF]). vm_compute. reflexivity.
Defined.

Lemma own_key_in_comment_rejected_witness :
  exists k' l' e',
    update_doc doc_own_key doc_own_key = Err (CorruptionError k' l')
    /\ dict_get (fst (reconcile doc_own_key_parse doc_own_key_stripped)) l'
       = Some e'
    /\ contains k' (comment e') = true.
Proof.
  apply (own_key_in_comment_rejected strings_file_regex
           doc_own_key doc_own_key
           doc_own_key_parse doc_own_key_stripped (txt "K")
           {| line := stmt_nl "K" "v"; comment := txt "/* about K */" ++ [LF] |}).
  - vm_compute. reflexivity.
  - vm_compute. reflexivity.
  - vm_compute. auto.
  - vm_compute. reflexivity.
  - exists (txt "/* about "), (txt " */" ++ [LF]). vm_compute. reflexivity.
Defined.

(** C8: the code at a text with the key [A] on two statement lines.  The
    parse succeeds; the second entry has replaced the first, whose line is
    gone. *)
Theorem duplicate_key_accepted :
  parse_doc doc_duplicate false
  = Ok [(txt "A", {| line := stmt_nl "A" "y"; comment := [] |})].
Proof. vm_compute. reflexivity. Qed.

(** C9: the code at a single statement whose value holds U+2028.  The
    whole line is a statement of key [K], but [splitlines] cuts it at
    U+2028; neither part is a statement, no entry is made, and the parse
    fails on the text left over. *)
Theorem line_separator_fragments_statement :
  (exists m, strings_file_regex doc_line_separator = Some m
             /\ group2 m = txt "K")
  /\ splitlines true doc_line_separator
     = [ [DQUOTE] ++ txt "K" ++ [DQUOTE] ++ txt " = " ++ [DQUOTE] ++ txt "a"
           ++ [LINE_SEPARATOR];
         txt "b" ++ [DQUOTE; SEMICOLON; LF] ]
  /\ parse_doc doc_line_separator false = Err (TrailingContentError []).
Proof.
  split; [eexists; split; vm_compute; reflexivity|].
  split; vm_compute; reflexivity.
Qed.

(** ** More on the parse *)

Lemma filter_filter {A} (f g : A -> bool) (l : list A) :
  filter f (filter g l) = filter (fun x => g x && f x) l.
Proof.
  induction l as [|a l IH]; simpl; [reflexivity|].
  destruct (g a); simpl; [destruct (f a)|]; rewrite IH; reflexivity.
Qed.

Lemma dict_set_all_app (d : dict) (a b : list (pystr * entry)) :
  dict_set_all d (a ++ b) = dict_set_all (dict_set_all d a) b.
Proof. apply fold_left_app. Qed.

Lemma dict_set_all_get_other (es : list (pystr * entry)) :
  forall d k, ~ In k (map fst es) ->
    dict_get (dict_set_all d es) k = dict_get d k.
Proof.
  induction es as [|[k0 e0] es IH]; intros d k Hk; [reflexivity|].
  rewrite dict_set_all_cons, IH by (intros H; apply Hk; right; exact H).
  apply dict_get_set_other. intros ->. apply Hk. left. reflexivity.
Qed.

(** The keys of a dict built by successive assignments: those it had,
    then the new ones in the order of their first assignment. *)
Lemma dict_set_all_keys (es : list (pystr * entry)) :
  forall d,
    dict_keys (dict_set_all d es)
    = dict_keys d
        ++ filter (fun k => negb (key_in k (dict_keys d)))
                  (keep_first (map fst es)).
Proof.
  induction es as [|[k e] es IH]; intros d.
  - simpl. rewrite app_nil_r. reflexivity.
  - rewrite dict_set_all_cons, IH. cbn [map fst keep_first filter].
    destruct (dict_get d k) as [p|] eqn:E.
    + rewrite (dict_keys_set_present d k e p E).
      pose proof (dict_get_Some_In d k p E) as Hin.
      apply key_in_In in Hin. rewrite Hin. cbn [negb]. f_equal.
      rewrite filter_filter. apply filter_ext. intros x.
      destruct (pystr_eqb x k) eqn:Ex; [|reflexivity].
      apply pystr_eqb_eq in Ex. subst x. rewrite Hin. reflexivity.
    + rewrite dict_keys_set_absent by exact E.
      pose proof (proj1 (dict_get_None d k) E) as Hnin.
      apply key_in_not_In in Hnin. rewrite Hnin. cbn [negb].
      rewrite <- app_assoc. cbn [app]. do 2 f_equal.
      rewrite filter_filter. apply filter_ext. intros x.
      unfold key_in. rewrite existsb_app. cbn [existsb].
      rewrite orb_false_r, negb_orb. apply andb_comm.
Qed.

Section ParseMore.

Variable regex : pystr -> option Match.

Lemma entries_app rv (a : list pystr) :
  forall acc b,
    entries regex rv acc (a ++ b)
    = entries regex rv acc a ++ entries regex rv (pending regex acc a) b.
Proof.
  induction a as [|ln a IH]; intros acc b; simpl; [reflexivity|].
  destruct (regex ln) as [m|]; simpl; rewrite IH; reflexivity.
Qed.

Lemma pending_no_statement (cl : list pystr) :
  forall acc, (forall l, In l cl -> regex l = None) ->
    pending regex acc cl = acc ++ concat cl.
Proof.
  induction cl as [|l cl IH]; intros acc H; simpl.
  - rewrite app_nil_r. reflexivity.
  - rewrite (H l) by (left; reflexivity).
    rewrite IH by (intros x Hx; apply H; right; exact Hx).
    rewrite <- app_assoc. reflexivity.
Qed.

Lemma pending_after_statement (pre : list pystr) ln m :
  forall acc, regex ln = Some m -> pending regex acc (pre ++ [ln]) = [].
Proof.
  induction pre as [|l pre IH]; intros acc Hm; simpl.
  - rewrite Hm. reflexivity.
  - destruct (regex l); apply IH; exact Hm.
Qed.

(** X1.  The keys of a parse are the keys recognised on the statement
    lines of the text, each once, in the order of their first
    appearance. *)
Theorem parse_keys_first_appearance
    (content : pystr) (remove_value : bool) (d : dict) :
  parse_strings_file_content regex content remove_value = Ok d ->
  dict_keys d = keep_first (matched_keys regex (splitlines true content)).
Proof.
  unfold parse_strings_file_content.
  destruct (length (strip _) =? 0)%nat; [|discriminate].
  intros H. injection H as <-.
  rewrite parse_lines_result, dict_set_all_keys, entries_keys. simpl.
  apply filter_all. reflexivity.
Qed.

(** X2.  Of the statement lines of one key the last one wins: the entry
    stored under the key has the line of the last statement line of that
    key, and as its comment the lines between the statement line before
    it and that line. *)
Theorem parse_last_statement_wins
    (content : pystr) (remove_value : bool) (d : dict)
    (pre cl post : list pystr) (ln : pystr) (m : Match) :
  parse_strings_file_content regex content remove_value = Ok d ->
  splitlines true content = pre ++ cl ++ ln :: post ->
  (pre = [] \/ exists pre' l' m', pre = pre' ++ [l'] /\ regex l' = Some m') ->
  (forall l, In l cl -> regex l = None) ->
  regex ln = Some m ->
  (forall l m', In l post -> regex l = Some m' -> group2 m' <> group2 m) ->
  dict_get d (group2 m)
  = Some {| line := if remove_value
                    then slice_to ln (start3 m) ++ slice_from ln (end3 m)
                    else ln;
            comment := concat cl |}.
Proof.
  intros Hparse Hsplit Hpre Hcl Hm Hpost.
  unfold parse_strings_file_content in Hparse.
  destruct (length (strip _) =? 0)%nat; [|discriminate].
  injection Hparse as <-.
  rewrite parse_lines_result, Hsplit. simpl acc_comment. simpl result.
  rewrite entries_app, entries_skip by exact Hcl.
  assert (Hacc : pending regex [] pre = []).
  { destruct Hpre as [-> | (pre' & l' & m' & -> & Hm')]; [reflexivity|].
    apply (pending_after_statement pre' l' m'). exact Hm'. }
  rewrite Hacc. simpl. rewrite Hm.
  rewrite dict_set_all_app, dict_set_all_cons.
  rewrite dict_set_all_get_other.
  - rewrite dict_get_set_same. reflexivity.
  - rewrite entries_keys. clear - Hpost.
    induction post as [|l post IH]; simpl; [tauto|].
    destruct (regex l) as [m'|] eqn:E.
    + intros [Hk | Hin].
      * apply (Hpost l m' (or_introl eq_refl) E). exact Hk.
      * apply IH; [|exact Hin].
        intros l0 m0 H0. apply Hpost. right. exact H0.
    + apply IH. intros l0 m0 H0. apply Hpost. right. exact H0.
Qed.

Lemma entries_In_split rv (lines : list pystr) :
  forall acc k e, In (k, e) (entries regex rv acc lines) ->
    exists pre cl ln m post,
      lines = pre ++ cl ++ ln :: post
      /\ (forall l, In l cl -> regex l = None)
      /\ regex ln = Some m /\ group2 m = k
      /\ line e = stored_line rv ln m
      /\ (pre = [] /\ comment e = acc ++ concat cl
          \/ (exists pre' l' m', pre = pre' ++ [l'] /\ regex l' = Some m')
             /\ comment e = concat cl).
Proof.
  induction lines as [|l r IH]; intros acc k e Hin; [contradiction|].
  simpl in Hin. destruct (regex l) as [m|] eqn:E.
  - destruct Hin as [Hin | Hin].
    + injection Hin as <- <-. exists [], [], l, m, r. simpl.
      repeat split; auto; [intros ? [] | left; rewrite app_nil_r; auto].
    + destruct (IH _ _ _ Hin)
        as (pre & cl & ln & m' & post & -> & Hcl & Hm & Hk & Hl & Hc).
      exists (l :: pre), cl, ln, m', post. repeat split; auto.
      right. destruct Hc as [[-> Hc] | [(pre' & l' & m0 & -> & Hm0) Hc]].
      * split; [exists [], l, m; auto | exact Hc].
      * split; [exists (l :: pre'), l', m0; auto | exact Hc].
  - destruct (IH _ _ _ Hin)
      as (pre & cl & ln & m' & post & -> & Hcl & Hm & Hk & Hl & Hc).
    destruct Hc as [[-> Hc] | [(pre' & l' & m0 & -> & Hm0) Hc]].
    + exists [], (l :: cl), ln, m', post. repeat split; auto.
      * intros x [<- | Hx]; [exact E | apply Hcl; exact Hx].
      * left. split; [reflexivity|]. rewrite Hc. simpl.
        rewrite <- app_assoc. reflexivity.
    + exists (l :: pre' ++ [l']), cl, ln, m', post. repeat split; auto.
      right. split; [exists (l :: pre'), l', m0; auto | exact Hc].
Qed.

(** X3.  Every entry of a parse stems from a statement line of its key,
    and its comment is exactly the run of lines between the statement line
    before it (or the start of the text) and that line; none of them is a
    statement. *)
Theorem parse_entry_comment_lines
    (content : pystr) (remove_value : bool) (d : dict) (k : pystr) (e : entry) :
  parse_strings_file_content regex content remove_value = Ok d ->
  dict_get d k = Some e ->
  exists pre cl ln m post,
    splitlines true content = pre ++ cl ++ ln :: post
    /\ (pre = [] \/ exists pre' l' m', pre = pre' ++ [l'] /\ regex l' = Some m')
    /\ (forall l, In l cl -> regex l = None)
    /\ regex ln = Some m /\ group2 m = k
    /\ comment e = concat cl.
Proof.
  unfold parse_strings_file_content.
  destruct (length (strip _) =? 0)%nat; [|discriminate].
  intros H Hk. injection H as <-.
  apply dict_get_in_dict in Hk. rewrite parse_lines_result in Hk.
  apply dict_set_all_In in Hk. destruct Hk as [[] | Hk].
  apply entries_In_split in Hk.
  destruct Hk as (pre & cl & ln & m & post & Hs & Hcl & Hm & Hkey & _ & Hc).
  exists pre, cl, ln, m, post. repeat split; auto.
  - destruct Hc as [[-> _] | [Hp _]]; [left; reflexivity | right; exact Hp].
  - destruct Hc as [[_ Hc] | [_ Hc]]; exact Hc.
Qed.

End ParseMore.

(** ** The lines and the value span *)

Lemma splitlines_from_nonempty (n : nat) :
  forall s cur ln, length s <= n ->
    In ln (splitlines_from true cur s) -> ln <> [].
Proof.
  induction n as [|n IH]; intros s cur ln Hn Hln.
  - destruct s; [|simpl in Hn; lia]. simpl in Hln.
    destruct cur; [contradiction|]. destruct Hln as [<- | []]. discriminate.
  - destruct s as [|c rest].
    + simpl in Hln. destruct cur; [contradiction|].
      destruct Hln as [<- | []]. discriminate.
    + simpl in Hn. rewrite splitlines_from_cons in Hln.
      destruct (is_linebreak c).
      * destruct rest as [|c2 rest2].
        { destruct Hln as [<- | []]. intros H. apply app_eq_nil in H.
          destruct H; discriminate. }
        simpl in Hn.
        destruct ((c =? CR)%N && (c2 =? LF)%N); destruct Hln as [<- | Hln];
          try (intros H; apply app_eq_nil in H; destruct H; discriminate).
        -- apply (IH rest2 [] ln); [lia | exact Hln].
        -- apply (IH (c2 :: rest2) [] ln); [simpl; lia | exact Hln].
      * apply (IH rest (cur ++ [c]) ln); [lia | exact Hln].
Qed.

(** X4.  The lines the loop of the parse runs over are never empty and,
    put end to end, are the text: [splitlines(True)] loses nothing and
    adds nothing. *)
Theorem splitlines_keepends_stitch (s : pystr) :
  concat (splitlines true s) = s
  /\ forall ln, In ln (splitlines true s) -> ln <> [].
Proof.
  split; [apply splitlines_concat|].
  intros ln Hln. apply (splitlines_from_nonempty (length s) s [] ln);
    [lia | exact Hln].
Qed.

Lemma firstn_length_app {A} (a r : list A) : firstn (length a) (a ++ r) = a.
Proof. induction a as [|x a IH]; simpl; [destruct r|rewrite IH]; reflexivity. Qed.

Lemma skipn_length_app {A} (a r : list A) : skipn (length a) (a ++ r) = r.
Proof. induction a as [|x a IH]; simpl; [reflexivity | exact IH]. Qed.

Lemma slice_to_prefix (a r : pystr) :
  slice_to (a ++ r) (Z.of_nat (length a)) = a.
Proof.
  unfold slice_to, slice_bound.
  destruct (Z.of_nat (length a) <? 0)%Z eqn:E; [apply Z.ltb_lt in E; lia|].
  rewrite Nat2Z.id, length_app, Nat.min_l by lia. apply firstn_length_app.
Qed.

Lemma slice_from_prefix (a r : pystr) :
  slice_from (a ++ r) (Z.of_nat (length a)) = r.
Proof.
  unfold slice_from, slice_bound.
  destruct (Z.of_nat (length a) <? 0)%Z eqn:E; [apply Z.ltb_lt in E; lia|].
  rewrite Nat2Z.id, length_app, Nat.min_l by lia. apply skipn_length_app.
Qed.

(** A slice up to a bound and the slice from the same bound make up the
    string, whatever the bound. *)
Lemma slice_same_bound (s : pystr) (i : Z) : slice_to s i ++ slice_from s i = s.
Proof. unfold slice_to, slice_from. apply firstn_skipn. Qed.

Section ValueSpan.

Variable regex : pystr -> option Match.

(** X5.  With [remove_value], a statement line whose match reports the
    value span [start(3), end(3)] inside the line is stored without the
    code points of that span and with everything before and after it. *)
Theorem strip_cuts_value_span
    (st : parse_state) (a v b : pystr) (m : Match) :
  regex (a ++ v ++ b) = Some m ->
  start3 m = Z.of_nat (length a) ->
  end3 m = Z.of_nat (length a + length v) ->
  parse_line regex true st (a ++ v ++ b)
  = {| result := dict_set (result st) (group2 m)
                   {| line := a ++ b; comment := acc_comment st |};
       last_key := group2 m;
       acc_comment := [] |}.
Proof.
  intros Hm Hs He. unfold parse_line. rewrite Hm, Hs, He.
  rewrite slice_to_prefix.
  rewrite app_assoc, <- length_app, slice_from_prefix. reflexivity.
Qed.

Lemma parse_line_empty_span (st : parse_state) (ln : pystr) :
  (forall m, regex ln = Some m -> start3 m = end3 m) ->
  parse_line regex true st ln = parse_line regex false st ln.
Proof.
  intros H. unfold parse_line. destruct (regex ln) as [m|] eqn:E;
    [|reflexivity].
  rewrite (H m eq_refl), slice_same_bound. reflexivity.
Qed.

(** X6.  Where every statement line has an empty value span ([start(3)]
    equal to [end(3)], as for an empty value, or [-1] and [-1] for a group
    that took no part in the match), parsing with [remove_value] is parsing
    without it. *)
Theorem remove_value_of_empty_values (content : pystr) :
  (forall ln m, In ln (splitlines true content) -> regex ln = Some m ->
     start3 m = end3 m) ->
  parse_strings_file_content regex content true
  = parse_strings_file_content regex content false.
Proof.
  intros H. unfold parse_strings_file_content.
  assert (E : forall lines st,
             (forall ln m, In ln lines -> regex ln = Some m ->
                start3 m = end3 m) ->
             parse_lines regex true st lines = parse_lines regex false st lines).
  { induction lines as [|ln r IH]; intros st Hl; [reflexivity|].
    simpl. rewrite parse_line_empty_span
      by (intros m Hm; apply (Hl ln m (or_introl eq_refl) Hm)).
    apply IH. intros l m Hin. apply Hl. right. exact Hin. }
  rewrite (E _ _ H). reflexivity.
Qed.

Lemma dict_set_key_comment (d1 : dict) :
  forall d2 k e1 e2,
    map key_comment d1 = map key_comment d2 -> comment e1 = comment e2 ->
    map key_comment (dict_set d1 k e1) = map key_comment (dict_set d2 k e2).
Proof.
  induction d1 as [|[k1 x1] d1 IH]; intros [|[k2 x2] d2] k e1 e2 Hd He;
    try discriminate.
  - simpl. unfold key_comment. simpl. rewrite He. reflexivity.
  - simpl in Hd. injection Hd as Hk Hc Hd. subst k2. simpl.
    destruct (pystr_eqb k1 k); simpl; unfold key_comment at 1 3; simpl.
    + rewrite He, Hd. reflexivity.
    + rewrite Hc. f_equal. apply IH; assumption.
Qed.

Lemma parse_lines_key_comment (lines : list pystr) :
  forall st1 st2,
    map key_comment (result st1) = map key_comment (result st2) ->
    last_key st1 = last_key st2 -> acc_comment st1 = acc_comment st2 ->
    map key_comment (result (parse_lines regex true st1 lines))
    = map key_comment (result (parse_lines regex false st2 lines))
    /\ last_key (parse_lines regex true st1 lines)
       = last_key (parse_lines regex false st2 lines)
    /\ acc_comment (parse_lines regex true st1 lines)
       = acc_comment (parse_lines regex false st2 lines).
Proof.
  induction lines as [|ln r IH]; intros st1 st2 Hr Hk Ha; [auto|].
  simpl. apply IH; unfold parse_line; destruct (regex ln) as [m|]; simpl;
    try assumption; try reflexivity.
  - apply dict_set_key_comment; assumption.
  - rewrite Ha. reflexivity.
Qed.

(** X7.  [remove_value] changes stored lines only: with and without it the
    parse fails on the same texts with the same error, and where it
    succeeds it has the same keys in the same order under the same
    comments. *)
Theorem remove_value_changes_lines_only (content : pystr) :
  match parse_strings_file_content regex content true,
        parse_strings_file_content regex content false with
  | Ok d', Ok d => map key_comment d' = map key_comment d
  | Err e', Err e => e' = e
  | _, _ => False
  end.
Proof.
  unfold parse_strings_file_content.
  destruct (parse_lines_key_comment (splitlines true content)
              parse_init parse_init eq_refl eq_refl eq_refl)
    as (Hr & Hk & Ha).
  rewrite Ha, Hk.
  destruct (length (strip _) =? 0)%nat; [exact Hr | reflexivity].
Qed.

(** X8.  A text none of whose lines is a statement, the empty text among
    them, parses to the empty dict if it is whitespace throughout, and
    otherwise fails with the trailing-content error naming the empty
    key. *)
Theorem parse_without_statements (content : pystr) (remove_value : bool) :
  (forall ln, In ln (splitlines true content) -> regex ln = None) ->
  parse_strings_file_content regex content remove_value
  = if forallb isspace content then Ok []
    else Err (TrailingContentError []).
Proof.
  intros H. unfold parse_strings_file_content.
  rewrite parse_lines_no_statement by exact H. simpl.
  rewrite splitlines_concat.
  destruct (forallb isspace content) eqn:E.
  - apply strip_empty in E. rewrite E. reflexivity.
  - destruct (length (strip content) =? 0)%nat eqn:E'; [|reflexivity].
    apply strip_empty in E'. congruence.
Qed.

End ValueSpan.

(** ** More on the reconciliation *)

Lemma flat_map_ext_in {A B} (f g : A -> list B) (l : list A) :
  (forall a, In a l -> f a = g a) -> flat_map f l = flat_map g l.
Proof.
  induction l as [|a l IH]; intros H; simpl; [reflexivity|].
  rewrite (H a) by (left; reflexivity). f_equal. apply IH.
  intros x Hx. apply H. right. exact Hx.
Qed.

Lemma map_fst_filter (f : pystr -> bool) (d : dict) :
  map fst (filter (fun ke => f (fst ke)) d) = filter f (map fst d).
Proof.
  induction d as [|[k e] d IH]; simpl; [reflexivity|].
  destruct (f k); simpl; rewrite IH; reflexivity.
Qed.

Lemma reconcile_key_snd_mod_of (d : dict) ms k g :
  snd (reconcile_key (d, ms) (k, g)) = ms ++ mod_of d (k, g).
Proof.
  unfold reconcile_key, mod_of. simpl.
  destruct (dict_get d k) as [p|]; [|reflexivity].
  destruct (negb _); simpl; [reflexivity | rewrite app_nil_r; reflexivity].
Qed.

(** The modifications are those of the reference entries, in reference
    order, each read off the target as it was. *)
Lemma reconcile_mods (R : dict) :
  forall d ms, NoDup (dict_keys R) ->
    snd (fold_left reconcile_key R (d, ms)) = ms ++ flat_map (mod_of d) R.
Proof.
  induction R as [|[k g] R IH]; intros d ms Hnd.
  - simpl. rewrite app_nil_r. reflexivity.
  - simpl in Hnd. inversion Hnd as [|? ? Hk HR]; subst.
    rewrite reconcile_cons, IH by exact HR.
    rewrite reconcile_key_snd_mod_of, reconcile_key_fst.
    cbn [flat_map]. rewrite <- app_assoc. do 2 f_equal.
    apply flat_map_ext_in. intros [k' g'] Hin. unfold mod_of. simpl.
    rewrite dict_get_set_other; [reflexivity|].
    intros ->. apply Hk. change k' with (fst (k', g')). apply in_map, Hin.
Qed.

Lemma mod_of_key (T : dict) (kg : pystr * entry) (x : modification) :
  In x (mod_of T kg) -> mod_key x = fst kg.
Proof.
  unfold mod_of. destruct (dict_get T (fst kg)) as [p|].
  - destruct (negb _); [intros [<- | []]; reflexivity | intros []].
  - intros [<- | []]. reflexivity.
Qed.

Lemma merged_NoDup (T R : dict) :
  NoDup (dict_keys T) -> NoDup (dict_keys R) ->
  NoDup (dict_keys (fst (reconcile T R))).
Proof.
  intros HT HR. unfold reconcile. rewrite reconcile_keys by exact HR.
  apply NoDup_app; [exact HT | apply NoDup_filter; exact HR |].
  intros k Hk Hf. apply filter_In in Hf. destruct Hf as [_ Hf].
  apply key_in_In in Hk. rewrite Hk in Hf. discriminate.
Qed.

Lemma check_comment_err_kind (l c : pystr) (ks : list pystr) (e : error) :
  check_comment l c ks = Err e -> exists k, e = CorruptionError k l.
Proof.
  induction ks as [|k ks IH]; simpl; [discriminate|].
  destruct (contains k c); [|exact IH].
  intros H. injection H as <-. exists k. reflexivity.
Qed.

Lemma validate_err_kind (d : dict) (all ls : list pystr) (e : error) :
  (forall l, In l ls -> In l (dict_keys d)) ->
  validate d all ls = Err e -> exists k l, e = CorruptionError k l.
Proof.
  induction ls as [|l0 ls IH]; intros Hin; simpl; [discriminate|].
  destruct (dict_get_In d l0 (Hin l0 (or_introl eq_refl))) as (e0 & He0).
  unfold dict_item. rewrite He0. simpl.
  destruct (check_comment l0 (comment e0) all) as [[]|err] eqn:Ec; simpl.
  - apply IH. intros l Hl. apply Hin. right. exact Hl.
  - intros H. injection H as <-.
    destruct (check_comment_err_kind _ _ _ _ Ec) as (k & ->).
    exists k, l0. reflexivity.
Qed.

Lemma attach_total (d : dict) (ks : list pystr) :
  forall c, (forall k, In k ks -> In k (dict_keys d)) ->
    exists nc, attach d c ks = Ok nc.
Proof.
  induction ks as [|k ks IH]; intros c H; simpl; [eexists; reflexivity|].
  destruct (dict_get_In d k (H k (or_introl eq_refl))) as (e & He).
  unfold dict_item. rewrite He. simpl.
  apply IH. intros x Hx. apply H. right. exact Hx.
Qed.

Lemma merged_order_in_merged (T R : dict) (k : pystr) :
  NoDup (dict_keys R) ->
  In k (dict_keys R ++ superfluous T R) ->
  In k (dict_keys (fst (reconcile T R))).
Proof.
  intros Hnd Hk. apply merged_has_all_keys; [exact Hnd|].
  apply in_app_or in Hk. apply in_or_app. destruct Hk as [Hk | Hk].
  - right. exact Hk.
  - left. apply filter_In in Hk. tauto.
Qed.

Lemma update_parses_intro (T R : dict) (nc : pystr) :
  let M := fst (reconcile T R) in
  let all := set_of (dict_keys M ++ dict_keys R) in
  validate M all all = Ok tt ->
  attach M [] (dict_keys R ++ superfluous M R) = Ok nc ->
  update_parses T R
  = Ok (nc, snd (reconcile T R),
        {| before := dict_keys M;
           after := dict_keys R ++ superfluous M R |}).
Proof.
  unfold update_parses, superfluous. destruct (reconcile T R) as [M ms].
  simpl. intros -> ->. reflexivity.
Qed.

(** The text of the merged parse in the merged order: for each reference
    entry its comment and the line of the merged entry, then the entries
    that only the target has. *)
Lemma merged_text (T R : dict) :
  NoDup (dict_keys T) -> NoDup (dict_keys R) ->
  attach (fst (reconcile T R)) [] (dict_keys R ++ superfluous T R)
  = Ok (flat_map (fun kg => comment (snd kg)
                            ++ line (merged_entry T (fst kg) (snd kg))) R
        ++ flat_map piece (superfluous_entries T R)).
Proof.
  intros HT HR.
  pose (es := map (fun kg => (fst kg, merged_entry T (fst kg) (snd kg))) R
              ++ superfluous_entries T R).
  assert (Hkeys : map fst es = dict_keys R ++ superfluous T R).
  { unfold es. rewrite map_app, map_map. simpl. f_equal.
    unfold superfluous_entries, superfluous, dict_keys.
    apply (map_fst_filter (fun k => negb (key_in k (map fst R)))). }
  rewrite <- Hkeys. rewrite (attach_entries _ es []).
  - simpl. f_equal. unfold es. rewrite flat_map_app. f_equal.
    clear. induction R as [|[k g] R IH]; simpl; [reflexivity|].
    rewrite IH. unfold piece at 1. simpl.
    rewrite merged_entry_comment. reflexivity.
  - intros [k e] Hin. unfold es in Hin. apply in_app_or in Hin. simpl.
    destruct Hin as [Hin | Hin].
    + apply in_map_iff in Hin. destruct Hin as ([k' g] & Heq & Hin).
      simpl in Heq. injection Heq as <- <-.
      apply reconcile_get; assumption.
    + apply filter_In in Hin. destruct Hin as [Hin Hf]. simpl in Hf.
      apply negb_true_iff, key_in_not_In in Hf.
      unfold reconcile. rewrite reconcile_get_other by exact Hf.
      apply dict_get_of_In; assumption.
Qed.

Lemma mods_of_reference (T R : dict) :
  NoDup (dict_keys R) -> snd (reconcile T R) = flat_map (mod_of T) R.
Proof. intros H. unfold reconcile. rewrite reconcile_mods by exact H. reflexivity. Qed.

Lemma parse_err_kind regex content rv (e : error) :
  parse_strings_file_content regex content rv = Err e ->
  exists k, e = TrailingContentError k.
Proof.
  unfold parse_strings_file_content.
  destruct (length (strip _) =? 0)%nat; [discriminate|].
  intros H. injection H as <-. eexists. reflexivity.
Qed.

Lemma update_parses_err_kind (T R : dict) (e : error) :
  NoDup (dict_keys R) ->
  update_parses T R = Err e -> exists k l, e = CorruptionError k l.
Proof.
  intros Hnd.
  pose proof (fun k => proj1 (all_keys_union T R k Hnd)) as Hall.
  pose proof (merged_has_all_keys T R) as Hhas.
  pose proof (merged_order_in_merged T R) as Hord.
  rewrite <- (superfluous_merged T R Hnd) in Hord.
  unfold update_parses, superfluous in *.
  destruct (reconcile T R) as [M ms]. simpl in *.
  destruct (validate M _ _) as [[]|err] eqn:Ev; simpl.
  - destruct (attach_total M _ [] (fun k Hk => Hord k Hnd Hk)) as (nc & ->).
    discriminate.
  - intros H. injection H as <-.
    apply (validate_err_kind M _ _ err) in Ev; [exact Ev|].
    intros l Hl. apply Hhas; [exact Hnd | apply Hall; exact Hl].
Qed.

Section UpdateMore.

Variable regex : pystr -> option Match.

(** X9.  The modification list of a successful run holds, for each
    reference key in reference order, an insert if the target lacks the
    key, a comment change if the target has it under another comment, and
    nothing otherwise; it holds nothing else. *)
Theorem modifications_per_reference_key
    (content generated : pystr) (T R : dict) nc mods ok :
  parse_strings_file_content regex content false = Ok T ->
  parse_strings_file_content regex generated true = Ok R ->
  update_strings_file_content regex content generated = Ok (nc, mods, ok) ->
  mods = flat_map (mod_of T) R.
Proof.
  intros HT HR Hup.
  rewrite (update_of_parses regex content generated T R HT HR) in Hup.
  apply update_parses_ok in Hup. simpl in Hup.
  destruct Hup as (_ & _ & -> & _).
  apply mods_of_reference. exact (parse_NoDup regex generated true R HR).
Qed.

(** X10.  A key of both parses ends up with the target's line under the
    reference's comment; a comment change from the target's comment to the
    reference's is recorded exactly when the two differ, and no insert is
    recorded for the key. *)
Theorem comment_refreshed
    (content generated : pystr) (T R : dict) (k : pystr) (p g : entry) :
  parse_strings_file_content regex content false = Ok T ->
  parse_strings_file_content regex generated true = Ok R ->
  dict_get T k = Some p ->
  dict_get R k = Some g ->
  dict_get (fst (reconcile T R)) k
  = Some {| line := line p; comment := comment g |}
  /\ (comment p <> comment g
      <-> In (ModComment k (comment p) (comment g)) (snd (reconcile T R)))
  /\ forall v, ~ In (ModInsert k v) (snd (reconcile T R)).
Proof.
  intros HT HR Hp Hg.
  pose proof (parse_NoDup regex generated true R HR) as Hnd.
  pose proof (dict_get_in_dict R k g Hg) as Hin.
  assert (Hmod : mod_of T (k, g)
                 = if negb (pystr_eqb (comment p) (comment g))
                   then [ModComment k (comment p) (comment g)] else []).
  { unfold mod_of. simpl. rewrite Hp. reflexivity. }
  assert (Honly : forall x, In x (snd (reconcile T R)) -> mod_key x = k ->
                    In x (mod_of T (k, g))).
  { intros x Hx Hk. rewrite mods_of_reference in Hx by exact Hnd.
    apply in_flat_map in Hx. destruct Hx as ([k' g'] & Hin' & Hx).
    pose proof (mod_of_key T (k', g') x Hx) as Hk'. simpl in Hk'.
    rewrite Hk in Hk'. subst k'.
    pose proof (dict_get_of_In R k g' Hnd Hin') as Hg'.
    rewrite Hg in Hg'. injection Hg' as <-. exact Hx. }
  split; [|split].
  - unfold reconcile. rewrite (reconcile_get R T [] k g Hnd Hin).
    unfold merged_entry. rewrite Hp. reflexivity.
  - split.
    + intros Hne. rewrite mods_of_reference by exact Hnd.
      apply in_flat_map. exists (k, g). split; [exact Hin|].
      rewrite Hmod. apply pystr_eqb_neq in Hne. rewrite Hne. left. reflexivity.
    + intros Hx. apply Honly in Hx; [|reflexivity]. rewrite Hmod in Hx.
      destruct (pystr_eqb (comment p) (comment g)) eqn:E; [destruct Hx|].
      apply pystr_eqb_neq. exact E.
  - intros v Hx. apply Honly in Hx; [|reflexivity]. rewrite Hmod in Hx.
    destruct (negb _); [destruct Hx as [Hx | []]; discriminate | destruct Hx].
Qed.

(** X11.  A key that only the target has keeps its entry, comment and
    line, and no modification is recorded for it. *)
Theorem superfluous_entry_untouched
    (content generated : pystr) (T R : dict) (k : pystr) (p : entry) :
  parse_strings_file_content regex content false = Ok T ->
  parse_strings_file_content regex generated true = Ok R ->
  dict_get T k = Some p ->
  ~ In k (dict_keys R) ->
  dict_get (fst (reconcile T R)) k = Some p
  /\ forall x, In x (snd (reconcile T R)) -> mod_key x <> k.
Proof.
  intros HT HR Hp Hk.
  pose proof (parse_NoDup regex generated true R HR) as Hnd.
  split.
  - unfold reconcile. rewrite reconcile_get_other by exact Hk. exact Hp.
  - intros x Hx Heq. rewrite mods_of_reference in Hx by exact Hnd.
    apply in_flat_map in Hx. destruct Hx as ([k' g'] & Hin' & Hx).
    apply mod_of_key in Hx. simpl in Hx. apply Hk.
    rewrite <- Heq, Hx. change k' with (fst (k', g')). apply in_map, Hin'.
Qed.

(** X12.  Nothing is recorded exactly when the target has every
    reference key under the reference's comment, and then the
    reconciliation leaves the parse of the target as it is. *)
Theorem no_modifications_iff_in_sync
    (content generated : pystr) (T R : dict) :
  parse_strings_file_content regex content false = Ok T ->
  parse_strings_file_content regex generated true = Ok R ->
  (snd (reconcile T R) = []
   <-> forall k g, dict_get R k = Some g ->
         exists p, dict_get T k = Some p /\ comment p = comment g)
  /\ (snd (reconcile T R) = [] -> fst (reconcile T R) = T).
Proof.
  intros HT HR.
  pose proof (parse_NoDup regex generated true R HR) as Hnd.
  assert (Hiff : snd (reconcile T R) = []
                 <-> forall k g, dict_get R k = Some g ->
                       exists p, dict_get T k = Some p
                                 /\ comment p = comment g).
  { rewrite mods_of_reference by exact Hnd. split.
    - intros Hnil k g Hg. apply dict_get_in_dict in Hg.
      assert (Hm : mod_of T (k, g) = []).
      { destruct (mod_of T (k, g)) as [|x l] eqn:E; [reflexivity|].
        assert (Hx : In x (flat_map (mod_of T) R)).
        { apply in_flat_map. exists (k, g). split; [exact Hg|].
          rewrite E. left. reflexivity. }
        rewrite Hnil in Hx. destruct Hx. }
      unfold mod_of in Hm. simpl in Hm.
      destruct (dict_get T k) as [p|]; [|discriminate].
      exists p. split; [reflexivity|].
      destruct (pystr_eqb (comment p) (comment g)) eqn:E; [|discriminate].
      apply pystr_eqb_eq. exact E.
    - intros H. rewrite (flat_map_ext_in (mod_of T) (fun _ => [])).
      + clear. induction R; simpl; auto.
      + intros [k g] Hin. destruct (H k g (dict_get_of_In R k g Hnd Hin))
          as (p & Hp & Hc).
        unfold mod_of. simpl. rewrite Hp, Hc, pystr_eqb_refl. reflexivity. }
  split; [exact Hiff|].
  intros Hnil. unfold reconcile. rewrite reconcile_fixed; [reflexivity|].
  intros k g Hin. apply (proj1 Hiff Hnil).
  apply dict_get_of_In; assumption.
Qed.

(** X13.  The key order returned as the order before is read after the
    insertions: it is the target's keys followed by the inserted reference
    keys, so it is a rearrangement of the order returned as the order
    after. *)
Theorem before_lists_inserted_keys
    (content generated : pystr) (T R : dict) nc mods ok :
  parse_strings_file_content regex content false = Ok T ->
  parse_strings_file_content regex generated true = Ok R ->
  update_strings_file_content regex content generated = Ok (nc, mods, ok) ->
  before ok
  = dict_keys T
      ++ filter (fun k => negb (key_in k (dict_keys T))) (dict_keys R)
  /\ Permutation (before ok) (after ok).
Proof.
  intros HT HR Hup.
  pose proof (parse_NoDup regex content false T HT) as HndT.
  pose proof (parse_NoDup regex generated true R HR) as HndR.
  rewrite (update_of_parses regex content generated T R HT HR) in Hup.
  apply update_parses_ok in Hup. simpl in Hup.
  destruct Hup as (_ & _ & _ & Hb & Ha).
  rewrite superfluous_merged in Ha by exact HndR.
  split.
  - rewrite Hb. unfold reconcile. apply reconcile_keys. exact HndR.
  - rewrite Hb, Ha. apply NoDup_Permutation.
    + apply merged_NoDup; assumption.
    + apply merged_order_NoDup; assumption.
    + intros k. split.
      * intros Hk. apply in_or_app.
        destruct (key_in k (dict_keys R)) eqn:E.
        -- left. apply key_in_In. exact E.
        -- right. apply filter_In. rewrite E. split; [|reflexivity].
           unfold reconcile in Hk. rewrite reconcile_keys in Hk by exact HndR.
           apply in_app_or in Hk. destruct Hk as [Hk | Hk]; [exact Hk|].
           apply filter_In in Hk. destruct Hk as [Hk _].
           apply key_in_not_In in E. contradiction.
      * apply merged_order_in_merged. exact HndR.
Qed.

(** X14.  The look-ups [parse[l]] and [parse[k]] never fail: whatever the
    two texts, the only failures of [update_strings_file_content] are the
    trailing-content error of one of the two parses and the corruption
    error. *)
Theorem update_never_key_error
    (content generated : pystr) (e : error) :
  update_strings_file_content regex content generated = Err e ->
  (exists k, e = TrailingContentError k)
  \/ (exists k l, e = CorruptionError k l).
Proof.
  unfold update_strings_file_content.
  destruct (parse_strings_file_content regex content false) as [T|e1] eqn:HT.
  - destruct (parse_strings_file_content regex generated true) as [R|e2] eqn:HR.
    + simpl. intros H. right.
      apply (update_parses_err_kind T R e); [|exact H].
      exact (parse_NoDup regex generated true R HR).
    + simpl. intros H. injection H as <-. left.
      exact (parse_err_kind regex generated true e2 HR).
  - simpl. intros H. injection H as <-. left.
    exact (parse_err_kind regex content false e1 HT).
Qed.

(** X15.  When both texts parse, the reconciliation succeeds exactly when
    no key of the target or the reference occurs in the merged comment of
    any such key. *)
Theorem update_succeeds_iff_clean
    (content generated : pystr) (T R : dict) :
  parse_strings_file_content regex content false = Ok T ->
  parse_strings_file_content regex generated true = Ok R ->
  ((exists x, update_strings_file_content regex content generated = Ok x)
   <-> forall l k e,
         In l (dict_keys T ++ dict_keys R) ->
         In k (dict_keys T ++ dict_keys R) ->
         dict_get (fst (reconcile T R)) l = Some e ->
         contains k (comment e) = false).
Proof.
  intros HT HR.
  pose proof (parse_NoDup regex generated true R HR) as Hnd.
  rewrite (update_of_parses regex content generated T R HT HR). split.
  - intros ([[nc mods] ok] & Hup) l k e Hl Hk He.
    apply update_parses_ok in Hup. simpl in Hup. destruct Hup as (Hval & _).
    destruct (proj1 (validate_ok _ _ _) Hval l
                (proj2 (all_keys_union T R l Hnd) Hl)) as (e' & He' & Hno).
    rewrite He in He'. injection He' as <-.
    apply Hno. apply all_keys_union; assumption.
  - intros Hclean.
    assert (Hval : validate (fst (reconcile T R))
                     (set_of (dict_keys (fst (reconcile T R)) ++ dict_keys R))
                     (set_of (dict_keys (fst (reconcile T R)) ++ dict_keys R))
                   = Ok tt).
    { apply validate_ok. intros l Hl.
      apply all_keys_union in Hl; [|exact Hnd].
      destruct (dict_get_In _ l (merged_has_all_keys T R l Hnd Hl)) as (e & He).
      exists e. split; [exact He|]. intros k Hk.
      apply all_keys_union in Hk; [|exact Hnd].
      apply (Hclean l k e); assumption. }
    destruct (attach_total (fst (reconcile T R))
                (dict_keys R ++ superfluous (fst (reconcile T R)) R) [])
      as (nc & Hatt).
    { rewrite superfluous_merged by exact Hnd.
      intros k. apply merged_order_in_merged. exact Hnd. }
    eexists. apply update_parses_intro; [exact Hval | exact Hatt].
Qed.

(** X16.  The output text of a successful run is, for each reference key
    in reference order, the reference's comment followed by the target's
    line for the key (the reference's value-stripped line where the
    target lacks the key), and after them the entries that only the
    target has, comment and line, in target order. *)
Theorem output_text_formula
    (content generated : pystr) (T R : dict) nc mods ok :
  parse_strings_file_content regex content false = Ok T ->
  parse_strings_file_content regex generated true = Ok R ->
  update_strings_file_content regex content generated = Ok (nc, mods, ok) ->
  nc = flat_map (fun kg =>
                   comment (snd kg)
                   ++ match dict_get T (fst kg) with
                      | Some p => line p
                      | None => line (snd kg)
                      end) R
       ++ flat_map (fun ke => comment (snd ke) ++ line (snd ke))
                   (filter (fun ke => negb (key_in (fst ke) (dict_keys R))) T).
Proof.
  intros HT HR Hup.
  pose proof (parse_NoDup regex content false T HT) as HndT.
  pose proof (parse_NoDup regex generated true R HR) as HndR.
  rewrite (update_of_parses regex content generated T R HT HR) in Hup.
  apply update_parses_ok in Hup. simpl in Hup.
  destruct Hup as (_ & Hatt & _).
  rewrite superfluous_merged in Hatt by exact HndR.
  rewrite (merged_text T R HndT HndR) in Hatt. injection Hatt as <-.
  f_equal. apply flat_map_ext_in. intros [k g] _. simpl.
  unfold merged_entry. destruct (dict_get T k); reflexivity.
Qed.

End UpdateMore.

(** ** Texts in sync, and empty texts *)

Section Edges.

Variable regex : pystr -> option Match.

Lemma parse_text_of_entries (content : pystr) (T : dict) :
  parse_strings_file_content regex content false = Ok T ->
  NoDup (matched_keys regex (splitlines true content)) ->
  flat_map piece T ++ pending regex [] (splitlines true content) = content.
Proof.
  unfold parse_strings_file_content.
  destruct (length (strip _) =? 0)%nat; [|discriminate].
  intros H Hnd. injection H as <-.
  rewrite parse_result_entries by exact Hnd.
  rewrite entries_text. simpl. apply splitlines_concat.
Qed.

(** X17.  A target that is in sync is returned byte for byte: if no key
    is recognised twice in it, nothing follows its last statement line, it
    has every reference key under the reference's comment, and its keys
    are the reference keys in reference order followed by its other keys,
    then a successful run returns the target text itself, no modification,
    and the target's key order before and after. *)
Theorem in_sync_text_is_returned
    (content generated : pystr) (T R : dict) nc mods ok :
  parse_strings_file_content regex content false = Ok T ->
  parse_strings_file_content regex generated true = Ok R ->
  NoDup (matched_keys regex (splitlines true content)) ->
  (splitlines true content = []
   \/ exists pre ln m,
       splitlines true content = pre ++ [ln] /\ regex ln = Some m) ->
  (forall k g, dict_get R k = Some g ->
     exists p, dict_get T k = Some p /\ comment p = comment g) ->
  dict_keys T
  = dict_keys R
      ++ filter (fun k => negb (key_in k (dict_keys R))) (dict_keys T) ->
  update_strings_file_content regex content generated = Ok (nc, mods, ok) ->
  nc = content /\ mods = []
  /\ before ok = dict_keys T /\ after ok = dict_keys T.
Proof.
  intros HT HR Hkeys Hend Hsync Horder Hup.
  pose proof (parse_NoDup regex content false T HT) as HndT.
  pose proof (parse_NoDup regex generated true R HR) as HndR.
  rewrite (update_of_parses regex content generated T R HT HR) in Hup.
  apply update_parses_ok in Hup. simpl in Hup.
  destruct Hup as (_ & Hatt & Hmods & Hb & Ha).
  rewrite superfluous_merged in Hatt, Ha by exact HndR.
  assert (Hfix : reconcile T R = (T, [])).
  { apply reconcile_fixed. intros k g Hin. apply Hsync.
    apply dict_get_of_In; assumption. }
  rewrite Hfix in Hatt, Hmods, Hb. simpl in Hatt, Hmods, Hb.
  unfold superfluous in Hatt, Ha. rewrite <- Horder in Hatt, Ha.
  rewrite attach_own_keys in Hatt by exact HndT. injection Hatt as <-.
  repeat split; try assumption.
  pose proof (parse_text_of_entries content T HT Hkeys) as Htext.
  assert (Hp : pending regex [] (splitlines true content) = []).
  { destruct Hend as [-> | (pre & ln & m & -> & Hm)]; [reflexivity|].
    apply (pending_after_statement regex pre ln m). exact Hm. }
  rewrite Hp, app_nil_r in Htext. exact Htext.
Qed.

(** X18.  Against a reference without statement lines a successful run
    records nothing and returns the target's entries, comment then line,
    in the target's order. *)
Theorem empty_reference_keeps_target
    (content generated : pystr) (T : dict) nc mods ok :
  parse_strings_file_content regex content false = Ok T ->
  parse_strings_file_content regex generated true = Ok [] ->
  update_strings_file_content regex content generated = Ok (nc, mods, ok) ->
  nc = flat_map (fun ke => comment (snd ke) ++ line (snd ke)) T
  /\ mods = []
  /\ before ok = dict_keys T /\ after ok = dict_keys T.
Proof.
  intros HT HR Hup.
  pose proof (parse_NoDup regex content false T HT) as HndT.
  rewrite (update_of_parses regex content generated T [] HT HR) in Hup.
  apply update_parses_ok in Hup. simpl in Hup.
  destruct Hup as (_ & Hatt & Hmods & Hb & Ha).
  unfold superfluous in Hatt, Ha. simpl in Hatt, Ha.
  rewrite filter_all in Hatt, Ha by reflexivity.
  rewrite attach_own_keys in Hatt by exact HndT. injection Hatt as <-.
  auto.
Qed.

(** X19.  For a target without statement lines a successful run inserts
    every reference entry: the output is the reference's entries, comment
    then value-stripped line, in reference order, and one insert is
    recorded per reference key, in that order. *)
Theorem empty_target_takes_reference
    (content generated : pystr) (R : dict) nc mods ok :
  parse_strings_file_content regex content false = Ok [] ->
  parse_strings_file_content regex generated true = Ok R ->
  update_strings_file_content regex content generated = Ok (nc, mods, ok) ->
  nc = flat_map (fun kg => comment (snd kg) ++ line (snd kg)) R
  /\ mods = map (fun kg =>
                   ModInsert (fst kg) (comment (snd kg) ++ line (snd kg))) R
  /\ before ok = dict_keys R /\ after ok = dict_keys R.
Proof.
  intros HT HR Hup.
  pose proof (parse_NoDup regex generated true R HR) as HndR.
  rewrite (update_of_parses regex content generated [] R HT HR) in Hup.
  apply update_parses_ok in Hup. simpl in Hup.
  destruct Hup as (_ & Hatt & Hmods & Hb & Ha).
  rewrite superfluous_merged in Hatt, Ha by exact HndR.
  rewrite (merged_text [] R (NoDup_nil _) HndR) in Hatt.
  injection Hatt as <-.
  unfold superfluous in Ha. simpl in Ha. rewrite app_nil_r in Ha.
  unfold reconcile in Hb. rewrite reconcile_keys in Hb by exact HndR.
  simpl in Hb. rewrite filter_all in Hb by reflexivity.
  rewrite mods_of_reference in Hmods by exact HndR.
  split; [|split; [|split; assumption]].
  - simpl. apply app_nil_r.
  - rewrite Hmods. clear. induction R as [|[k g] R IH]; simpl;
      [reflexivity | rewrite IH; reflexivity].
Qed.

(** X20.  The empty string occurs in every comment, so a run in which
    the empty key is recognised, in the target or in the reference, fails
    with the corruption error. *)
Theorem empty_key_rejected
    (content generated : pystr) (T R : dict) :
  parse_strings_file_content regex content false = Ok T ->
  parse_strings_file_content regex generated true = Ok R ->
  In [] (dict_keys T ++ dict_keys R) ->
  exists k l,
    update_strings_file_content regex content generated
    = Err (CorruptionError k l).
Proof.
  intros HT HR Hin.
  pose proof (parse_NoDup regex generated true R HR) as Hnd.
  destruct (dict_get_In _ [] (merged_has_all_keys T R [] Hnd Hin)) as (e & He).
  rewrite (update_of_parses regex content generated T R HT HR).
  assert (Hc : contains [] (comment e) = true)
    by (destruct (comment e); reflexivity).
  destruct (corruption_detected T R [] [] e Hnd Hin Hin He Hc)
    as (k & l & e' & Herr & _).
  exists k, l. exact Herr.
Qed.

End Edges.

(** ** The loop over the files *)

Section FilesFacts.

Variable FS : Type.
Variable read_file : FS -> pystr -> pystr.
Variable write_file : FS -> pystr -> pystr -> FS.
Variable regex : pystr -> option Match.

Lemma update_paths_app wet g (a b : list pystr) :
  forall fs ms,
    update_paths read_file write_file regex wet g fs ms (a ++ b)
    = match update_paths read_file write_file regex wet g fs ms a with
      | (fs1, Ok ms1) =>
          update_paths read_file write_file regex wet g fs1 ms1 b
      | (fs1, Err e) => (fs1, Err e)
      end.
Proof.
  induction a as [|p a IH]; intros fs ms; [reflexivity|].
  simpl. destruct (update_strings_file_content regex _ g)
    as [[[nc mods] ok]|e]; [apply IH | reflexivity].
Qed.

(** X21.  Without [wet_run] the loop over the files writes nothing:
    whatever the files hold and whether or not a file fails, the files are
    afterwards what they were. *)
Theorem dry_run_writes_nothing
    (generated_content : pystr) (paths : list pystr) :
  forall fs modss,
    fst (update_paths read_file write_file regex false generated_content
           fs modss paths) = fs.
Proof.
  induction paths as [|p paths IH]; intros fs modss; [reflexivity|].
  simpl. destruct (update_strings_file_content regex _ _)
    as [[[nc mods] ok]|e]; [apply IH | reflexivity].
Qed.

(** X22.  Let a file read back what was last written to it and be left
    alone by writes to other paths.  After a wet run that succeeds over
    pairwise distinct paths, each of these files holds the output text of
    [update_strings_file_content] on what it held before, and every other
    file is unchanged. *)
Theorem wet_run_files_hold_output
    (generated_content : pystr) (paths : list pystr) :
  (forall fs p c, read_file (write_file fs p c) p = c) ->
  (forall fs p q c, p <> q ->
     read_file (write_file fs p c) q = read_file fs q) ->
  NoDup paths ->
  forall fs modss fs' modss',
    update_paths read_file write_file regex true generated_content
      fs modss paths = (fs', Ok modss') ->
    (forall p, In p paths ->
       exists nc mods ok,
         update_strings_file_content regex (read_file fs p) generated_content
         = Ok (nc, mods, ok)
         /\ read_file fs' p = nc)
    /\ (forall q, ~ In q paths -> read_file fs' q = read_file fs q).
Proof.
  intros Hsame Hother.
  induction paths as [|p paths IH]; intros Hnd fs modss fs' modss' Hrun.
  - simpl in Hrun. injection Hrun as <- _. split; [intros p [] | reflexivity].
  - inversion Hnd as [|? ? Hp Hnd']; subst.
    simpl in Hrun.
    destruct (update_strings_file_content regex (read_file fs p)
                generated_content) as [[[nc mods] ok]|e] eqn:Hup;
      [|discriminate].
    set (fs1 := if negb (pystr_eqb nc (read_file fs p))
                then write_file fs p nc else fs) in Hrun.
    assert (H1 : read_file fs1 p = nc).
    { unfold fs1. destruct (pystr_eqb nc (read_file fs p)) eqn:E; simpl.
      - apply pystr_eqb_eq in E. symmetry. exact E.
      - apply Hsame. }
    assert (H2 : forall q, p <> q -> read_file fs1 q = read_file fs q).
    { intros q Hq. unfold fs1. destruct (negb _); [|reflexivity].
      apply Hother. exact Hq. }
    destruct (IH Hnd' fs1 _ fs' modss' Hrun) as [Hin Hout].
    split.
    + intros q [<- | Hq].
      * exists nc, mods, ok. split; [exact Hup|].
        rewrite (Hout p Hp). exact H1.
      * destruct (Hin q Hq) as (nc' & mods' & ok' & Hup' & Hread).
        exists nc', mods', ok'. split; [|exact Hread].
        rewrite <- (H2 q); [exact Hup'|]. intros ->. contradiction.
    + intros q Hq. rewrite (Hout q) by (intros H; apply Hq; right; exact H).
      apply H2. intros ->. apply Hq. left. reflexivity.
Qed.

(** X23.  The loop stops at the first file on which
    [update_strings_file_content] fails, with that failure: the failing
    file and the files after it are neither read further nor written, and
    the files are left as the files before it left them. *)
Theorem failure_stops_the_batch
    (wet_run : bool) (generated_content : pystr)
    (pre post : list pystr) (p : pystr)
    (fs fs1 : FS) (modss modss1 : list modss_item) (e : error) :
  update_paths read_file write_file regex wet_run generated_content
    fs modss pre = (fs1, Ok modss1) ->
  update_strings_file_content regex (read_file fs1 p) generated_content
  = Err e ->
  update_paths read_file write_file regex wet_run generated_content
    fs modss (pre ++ p :: post) = (fs1, Err e).
Proof.
  intros Hpre Hp. rewrite update_paths_app, Hpre. simpl. rewrite Hp.
  reflexivity.
Qed.

End FilesFacts.

(** ** The order of the report *)

Lemma insert_reverse_insert key value (l : list modification) :
  insert_reverse modtype (ModInsert key value) l = ModInsert key value :: l.
Proof.
  destruct l as [|y r]; [reflexivity|]. destruct y; reflexivity.
Qed.

Lemma insert_reverse_comment key b a (ins coms : list modification) :
  forallb is_insert ins = true ->
  forallb (fun x => negb (is_insert x)) coms = true ->
  insert_reverse modtype (ModComment key b a) (ins ++ coms)
  = ins ++ ModComment key b a :: coms.
Proof.
  intros Hi Hc. induction ins as [|y ins IH]; simpl.
  - destruct coms as [|y r]; [reflexivity|].
    simpl in Hc. destruct y; [discriminate | reflexivity].
  - simpl in Hi. destruct y; [|discriminate].
    change (pystr_ltb (txt "comment") (txt "insert")) with true. cbv iota.
    rewrite IH by exact Hi. reflexivity.
Qed.

(** X24.  [log_modifications] goes through the modifications of a file
    sorted by type in reverse: the inserts come first, then the comment
    changes, each kind in the order in which it was recorded. *)
Theorem report_order_inserts_first (l : list modification) :
  sorted_reverse modtype l
  = filter is_insert l ++ filter (fun x => negb (is_insert x)) l.
Proof.
  induction l as [|x l IH]; [reflexivity|].
  unfold sorted_reverse in *. cbn [fold_right]. rewrite IH.
  destruct x as [k v | k b a].
  - rewrite insert_reverse_insert. reflexivity.
  - cbn [filter is_insert negb]. apply insert_reverse_comment.
    + apply forallb_forall. intros y Hy. apply filter_In in Hy. tauto.
    + apply forallb_forall. intros y Hy. apply filter_In in Hy. tauto.
Qed.

(** ** The further properties on concrete documents *)

Lemma parse_keys_first_appearance_witness :
  dict_keys doc_aba_parse
  = keep_first (matched_keys strings_file_regex (splitlines true doc_aba)).
Proof.
  apply (parse_keys_first_appearance strings_file_regex doc_aba false
           doc_aba_parse).
  vm_compute. reflexivity.
Defined.

Lemma parse_last_statement_wins_witness :
  dict_get doc_aba_parse (txt "A")
  = Some {| line := stmt_nl "A" "z"; comment := [] |}.
Proof.
  apply (parse_last_statement_wins strings_file_regex doc_aba false
           doc_aba_parse [stmt_nl "A" "x"; stmt_nl "B" "y"] [] []
           (stmt_nl "A" "z")
           {| group2 := txt "A"; start3 := 7; end3 := 8 |}).
  - vm_compute. reflexivity.
  - vm_compute. reflexivity.
  - right. exists [stmt_nl "A" "x"], (stmt_nl "B" "y").
    eexists. split; [reflexivity | vm_compute; reflexivity].
  - intros l [].
  - vm_compute. reflexivity.
  - intros l m' [].
Defined.

Lemma parse_entry_comment_lines_witness :
  exists pre cl ln m post,
    splitlines true doc_two = pre ++ cl ++ ln :: post
    /\ (pre = []
        \/ exists pre' l' m',
            pre = pre' ++ [l'] /\ strings_file_regex l' = Some m')
    /\ (forall l, In l cl -> strings_file_regex l = None)
    /\ strings_file_regex ln = Some m /\ group2 m = txt "A"
    /\ txt "/* c */" ++ [LF] = concat cl.
Proof.
  apply (parse_entry_comment_lines strings_file_regex doc_two false
           doc_two_parse (txt "A")
           {| line := stmt_nl "A" "x"; comment := txt "/* c */" ++ [LF] |});
    vm_compute; reflexivity.
Defined.

Lemma strip_cuts_value_span_witness :
  parse_line strings_file_regex true parse_init
    (([DQUOTE] ++ txt "A" ++ [DQUOTE] ++ txt " = " ++ [DQUOTE])
       ++ txt "x" ++ [DQUOTE; SEMICOLON; LF])
  = {| result := dict_set [] (txt "A")
                   {| line := ([DQUOTE] ++ txt "A" ++ [DQUOTE] ++ txt " = "
                                 ++ [DQUOTE]) ++ [DQUOTE; SEMICOLON; LF];
                      comment := [] |};
       last_key := txt "A";
       acc_comment := [] |}.
Proof.
  apply (strip_cuts_value_span strings_file_regex parse_init
           ([DQUOTE] ++ txt "A" ++ [DQUOTE] ++ txt " = " ++ [DQUOTE])
           (txt "x") [DQUOTE; SEMICOLON; LF]
           {| group2 := txt "A"; start3 := 7; end3 := 8 |});
    vm_compute; reflexivity.
Defined.

Lemma remove_value_of_empty_values_witness :
  parse_strings_file_content strings_file_regex doc_empty_value true
  = parse_strings_file_content strings_file_regex doc_empty_value false.
Proof.
  apply (remove_value_of_empty_values strings_file_regex doc_empty_value).
  intros ln m Hin Hm. vm_compute in Hin. destruct Hin as [<- | []].
  vm_compute in Hm. injection Hm as <-. reflexivity.
Defined.

Lemma parse_without_statements_witness :
  parse_strings_file_content strings_file_regex (txt "  " ++ [LF]) false
  = if forallb isspace (txt "  " ++ [LF]) then Ok []
    else Err (TrailingContentError []).
Proof.
  apply (parse_without_statements strings_file_regex (txt "  " ++ [LF]) false).
  intros ln Hin. vm_compute in Hin. destruct Hin as [<- | []].
  vm_compute. reflexivity.
Defined.

Lemma modifications_per_reference_key_witness :
  scenario_mods = flat_map (mod_of scenario_T) scenario_R.
Proof.
  apply (modifications_per_reference_key strings_file_regex scenario_target
           scenario_reference scenario_T scenario_R
           scenario_output scenario_mods scenario_order);
    vm_compute; reflexivity.
Defined.

Lemma comment_refreshed_witness :
  dict_get (fst (reconcile scenario_T scenario_R)) (txt "A")
  = Some {| line := stmt_nl "A" "Hello";
            comment := txt "/* new note */" ++ [LF] |}
  /\ (txt "/* old note */" ++ [LF] <> txt "/* new note */" ++ [LF]
      <-> In (ModComment (txt "A") (txt "/* old note */" ++ [LF])
                (txt "/* new note */" ++ [LF]))
             (snd (reconcile scenario_T scenario_R)))
  /\ forall v, ~ In (ModInsert (txt "A") v)
                    (snd (reconcile scenario_T scenario_R)).
Proof.
  apply (comment_refreshed strings_file_regex scenario_target
           scenario_reference scenario_T scenario_R (txt "A")
           {| line := stmt_nl "A" "Hello";
              comment := txt "/* old note */" ++ [LF] |}
           {| line := stmt_nl "A" EmptyString;
              comment := txt "/* new note */" ++ [LF] |});
    vm_compute; reflexivity.
Defined.

Lemma superfluous_entry_untouched_witness :
  dict_get (fst (reconcile scenario_T scenario_R)) (txt "B")
  = Some {| line := stmt_nl "B" "World"; comment := [] |}
  /\ forall x, In x (snd (reconcile scenario_T scenario_R)) ->
               mod_key x <> txt "B".
Proof.
  apply (superfluous_entry_untouched strings_file_regex scenario_target
           scenario_reference scenario_T scenario_R (txt "B")
           {| line := stmt_nl "B" "World"; comment := [] |}).
  - vm_compute. reflexivity.
  - vm_compute. reflexivity.
  - vm_compute. reflexivity.
  - vm_compute. intuition discriminate.
Defined.

Lemma no_modifications_iff_in_sync_witness :
  (snd (reconcile scenario_output_parse scenario_R) = []
   <-> forall k g, dict_get scenario_R k = Some g ->
         exists p, dict_get scenario_output_parse k = Some p
                   /\ comment p = comment g)
  /\ (snd (reconcile scenario_output_parse scenario_R) = [] ->
      fst (reconcile scenario_output_parse scenario_R)
      = scenario_output_parse).
Proof.
  apply (no_modifications_iff_in_sync strings_file_regex scenario_output
           scenario_reference scenario_output_parse scenario_R);
    vm_compute; reflexivity.
Defined.

Lemma before_lists_inserted_keys_witness :
  before scenario_order
  = dict_keys scenario_T
      ++ filter (fun k => negb (key_in k (dict_keys scenario_T)))
                (dict_keys scenario_R)
  /\ Permutation (before scenario_order) (after scenario_order).
Proof.
  apply (before_lists_inserted_keys strings_file_regex scenario_target
           scenario_reference scenario_T scenario_R
           scenario_output scenario_mods scenario_order);
    vm_compute; reflexivity.
Defined.

Lemma update_never_key_error_witness :
  (exists k, CorruptionError (txt "K") (txt "K") = TrailingContentError k)
  \/ (exists k l, CorruptionError (txt "K") (txt "K") = CorruptionError k l).
Proof.
  apply (update_never_key_error strings_file_regex doc_own_key doc_own_key).
  vm_compute. reflexivity.
Defined.

Lemma update_succeeds_iff_clean_witness :
  (exists x, update_strings_file_content strings_file_regex
               scenario_target scenario_reference = Ok x)
  <-> forall l k e,
        In l (dict_keys scenario_T ++ dict_keys scenario_R) ->
        In k (dict_keys scenario_T ++ dict_keys scenario_R) ->
        dict_get (fst (reconcile scenario_T scenario_R)) l = Some e ->
        contains k (comment e) = false.
Proof.
  apply (update_succeeds_iff_clean strings_file_regex scenario_target
           scenario_reference scenario_T scenario_R);
    vm_compute; reflexivity.
Defined.

Lemma output_text_formula_witness :
  scenario_output
  = flat_map (fun kg =>
                comment (snd kg)
                ++ match dict_get scenario_T (fst kg) with
                   | Some p => line p
                   | None => line (snd kg)
                   end) scenario_R
    ++ flat_map (fun ke => comment (snd ke) ++ line (snd ke))
         (filter (fun ke => negb (key_in (fst ke) (dict_keys scenario_R)))
                 scenario_T).
Proof.
  apply (output_text_formula strings_file_regex scenario_target
           scenario_reference scenario_T scenario_R
           scenario_output scenario_mods scenario_order);
    vm_compute; reflexivity.
Defined.

Lemma in_sync_text_is_returned_witness :
  scenario_output = scenario_output
  /\ @nil modification = []
  /\ [txt "A"; txt "C"; txt "B"] = dict_keys scenario_output_parse
  /\ [txt "A"; txt "C"; txt "B"] = dict_keys scenario_output_parse.
Proof.
  apply (in_sync_text_is_returned strings_file_regex scenario_output
           scenario_reference scenario_output_parse scenario_R
           scenario_output []
           {| before := [txt "A"; txt "C"; txt "B"];
              after := [txt "A"; txt "C"; txt "B"] |}).
  - vm_compute. reflexivity.
  - vm_compute. reflexivity.
  - vm_compute. repeat constructor; simpl; intuition discriminate.
  - right.
    exists [txt "/* new note */" ++ [LF]; stmt_nl "A" "Hello";
            txt "/* new note */" ++ [LF]; stmt_nl "C" EmptyString],
           (stmt_nl "B" "World").
    eexists. split; vm_compute; reflexivity.
  - intros k g H. apply dict_get_in_dict in H.
    destruct H as [E | [E | []]]; injection E as <- <-;
      eexists; split; vm_compute; reflexivity.
  - vm_compute. reflexivity.
  - vm_compute. reflexivity.
Defined.

Lemma empty_reference_keeps_target_witness :
  scenario_target
  = flat_map (fun ke => comment (snd ke) ++ line (snd ke)) scenario_T
  /\ @nil modification = []
  /\ [txt "A"; txt "B"] = dict_keys scenario_T
  /\ [txt "A"; txt "B"] = dict_keys scenario_T.
Proof.
  apply (empty_reference_keeps_target strings_file_regex scenario_target []
           scenario_T scenario_target []
           {| before := [txt "A"; txt "B"]; after := [txt "A"; txt "B"] |});
    vm_compute; reflexivity.
Defined.

Lemma empty_target_takes_reference_witness :
  scenario_reference_stripped
  = flat_map (fun kg => comment (snd kg) ++ line (snd kg)) scenario_R
  /\ map (fun kg => ModInsert (fst kg) (comment (snd kg) ++ line (snd kg)))
         scenario_R
     = map (fun kg => ModInsert (fst kg) (comment (snd kg) ++ line (snd kg)))
           scenario_R
  /\ [txt "A"; txt "C"] = dict_keys scenario_R
  /\ [txt "A"; txt "C"] = dict_keys scenario_R.
Proof.
  apply (empty_target_takes_reference strings_file_regex [] scenario_reference
           scenario_R scenario_reference_stripped
           (map (fun kg =>
                   ModInsert (fst kg) (comment (snd kg) ++ line (snd kg)))
                scenario_R)
           {| before := [txt "A"; txt "C"]; after := [txt "A"; txt "C"] |});
    vm_compute; reflexivity.
Defined.

Lemma empty_key_rejected_witness :
  exists k l,
    update_strings_file_content strings_file_regex doc_empty_key doc_empty_key
    = Err (CorruptionError k l).
Proof.
  apply (empty_key_rejected strings_file_regex doc_empty_key doc_empty_key
           doc_empty_key_parse doc_empty_key_stripped).
  - vm_compute. reflexivity.
  - vm_compute. reflexivity.
  - vm_compute. auto.
Defined.

Lemma files_read_write_same (fs : files) (p c : pystr) :
  files_read (files_write fs p c) p = c.
Proof. simpl. rewrite pystr_eqb_refl. reflexivity. Qed.

Lemma files_read_write_other (fs : files) (p q c : pystr) :
  p <> q -> files_read (files_write fs p c) q = files_read fs q.
Proof. intros H. simpl. apply pystr_eqb_neq in H. rewrite H. reflexivity. Qed.

Lemma wet_run_files_hold_output_witness :
  (forall p, In p [txt "de"; txt "fr"] ->
     exists nc mods ok,
       update_strings_file_content strings_file_regex (files_read files0 p)
         scenario_reference = Ok (nc, mods, ok)
       /\ files_read files_after_de_fr p = nc)
  /\ (forall q, ~ In q [txt "de"; txt "fr"] ->
      files_read files_after_de_fr q = files_read files0 q).
Proof.
  apply (wet_run_files_hold_output files files_read files_write
           strings_file_regex
           scenario_reference [txt "de"; txt "fr"]
           files_read_write_same files_read_write_other)
    with (modss := []) (modss' := modss_after_de_fr).
  - repeat constructor; simpl; intuition discriminate.
  - vm_compute. reflexivity.
Defined.

Lemma failure_stops_the_batch_witness :
  update_paths files_read files_write strings_file_regex true
    scenario_reference files0 [] ([txt "de"] ++ txt "it" :: [txt "fr"])
  = (files_after_de, Err (TrailingContentError (txt "A"))).
Proof.
  apply (failure_stops_the_batch files files_read files_write
           strings_file_regex
           true scenario_reference [txt "de"] [txt "fr"] (txt "it")
           files0 files_after_de [] modss_after_de
           (TrailingContentError (txt "A")));
    vm_compute; reflexivity.
Defined.

(** ** No stored line is lost *)

Lemma flat_map_piece_split (es : list (pystr * entry)) (ke : pystr * entry) :
  In ke es ->
  exists a b, flat_map piece es = a ++ line (snd ke) ++ b.
Proof.
  intros Hin. apply in_split in Hin. destruct Hin as (l1 & l2 & ->).
  rewrite flat_map_app. simpl. unfold piece at 2.
  exists (flat_map piece l1 ++ comment (snd ke)), (flat_map piece l2).
  rewrite <- !app_assoc. reflexivity.
Qed.

(** X25.  Every statement line stored in the parse of the target occurs
    verbatim in the output text of a successful run, whether or not the
    reference has its key. *)
Theorem target_lines_survive
    (regex : pystr -> option Match)
    (content generated : pystr) (T : dict) (k : pystr) (p : entry)
    nc mods ok :
  parse_strings_file_content regex content false = Ok T ->
  update_strings_file_content regex content generated = Ok (nc, mods, ok) ->
  dict_get T k = Some p ->
  exists a b, nc = a ++ line p ++ b.
Proof.
  intros HT Hup Hp.
  destruct (update_ok_parses regex content generated _ Hup)
    as (T' & R & HT' & HR & Hup').
  rewrite HT in HT'. injection HT' as <-.
  pose proof (parse_NoDup regex generated true R HR) as HndR.
  apply update_parses_ok in Hup'. simpl in Hup'.
  destruct Hup' as (_ & Hatt & _).
  rewrite superfluous_merged in Hatt by exact HndR.
  destruct (attach_inv _ _ [] nc Hatt) as (es & Hkeys & Hget & ->).
  assert (Hk : In k (map fst es)).
  { rewrite Hkeys. apply in_or_app.
    destruct (key_in k (dict_keys R)) eqn:E.
    - left. apply key_in_In. exact E.
    - right. apply filter_In. rewrite E. split; [|reflexivity].
      apply (dict_get_Some_In T k p Hp). }
  apply in_map_iff in Hk. destruct Hk as ([k' e] & Hfst & Hin).
  simpl in Hfst. subst k'.
  pose proof (Hget (k, e) Hin) as He. simpl in He.
  assert (Hline : line e = line p).
  { destruct (dict_get R k) as [g|] eqn:Eg.
    - pose proof (dict_get_in_dict R k g Eg) as HinR.
      unfold reconcile in He. rewrite (reconcile_get R T [] k g HndR HinR) in He.
      injection He as <-. unfold merged_entry. rewrite Hp. reflexivity.
    - apply dict_get_None in Eg. unfold reconcile in He.
      rewrite reconcile_get_other in He by exact Eg. congruence. }
  destruct (flat_map_piece_split es (k, e) Hin) as (a & b & Hs).
  simpl in Hs. rewrite Hline in Hs. exists a, b. exact Hs.
Qed.

Lemma target_lines_survive_witness :
  exists a b, scenario_output = a ++ stmt_nl "B" "World" ++ b.
Proof.
  apply (target_lines_survive strings_file_regex scenario_target
           scenario_reference scenario_T (txt "B")
           {| line := stmt_nl "B" "World"; comment := [] |}
           scenario_output scenario_mods scenario_order);
    vm_compute; reflexivity.
Defined.
